(** * Architecture discovery and drift tracking: a shallow embedding

    The development follows three source files:
    - [drift_detector.py]          (module [Detector]),
    - [architecture_tracer.py]     (module [Tracer]),
    - [advanced_drift_tracker.py]  (module [Tracker]).

    Python integers are unbounded, hence scores live in [Z].  Python
    sets and dictionaries are modelled by stdpp's [gset] and [gmap]. *)

From Stdlib Require Import ZArith Lia Ascii String.
From stdpp Require Import gmap strings list fin_maps sorting.

Local Open Scope Z_scope.

(** ** Python values and library behaviour used by the sources *)

Module Py.

(** A value obtained from a JSON document or from [dict.get]: either a
    string or [None].  A string stands for a Python [str] whose
    characters are the code points 0..255. *)
Abbreviation jstr := (option string).

(** Truthiness of such a value, as tested by [if service:]. *)
Definition truthy (v : jstr) : bool :=
  match v with
  | Some s => negb (String.eqb s "")
  | None => false
  end.

(** [str(v)], as performed by an f-string. *)
Definition py_str (v : jstr) : string :=
  match v with
  | Some s => s
  | None => "None"
  end.

Inductive exn :=
| TypeError
| KeyError
| JSONDecodeError
| FileNotFoundError.

(** The result of running code that may raise. *)
Inductive outcome (A : Type) :=
| Ret (a : A)
| Raise (e : exn).
Arguments Ret {A} a.
Arguments Raise {A} e.

Global Instance outcome_bind : MBind outcome := fun A B k m =>
  match m with
  | Ret a => k a
  | Raise e => Raise e
  end.

(** Run [k] on every element, stopping at the first exception. *)
Fixpoint mapM {A B} (k : A -> outcome B) (l : list A) : outcome (list B) :=
  match l with
  | [] => Ret []
  | a :: l' => b ← k a; bs ← mapM k l'; Ret (b :: bs)
  end.

(** Order of [str] values: lexicographic on code points. *)
Definition str_le (a b : string) : Prop := String.leb a b = true.

Global Instance str_le_dec : RelDecision str_le.
Proof. intros a b. unfold str_le. apply _. Defined.

(** [sorted] on a list of strings. *)
Definition sorted_str (l : list string) : list string := merge_sort str_le l.

(** The strings of a list of values, when none of them is [None]. *)
Fixpoint all_str (l : list jstr) : option (list string) :=
  match l with
  | [] => Some []
  | Some s :: l' => cons s <$> all_str l'
  | None :: _ => None
  end.

(** [sorted] on a list of values.  With fewer than two elements no
    comparison takes place.  Otherwise every element is compared at
    least once, and [<] involving [None] raises [TypeError]. *)
Definition sorted (l : list jstr) : outcome (list jstr) :=
  match l with
  | [] | [_] => Ret l
  | _ =>
      match all_str l with
      | Some ss => Ret (Some <$> sorted_str ss)
      | None => Raise TypeError
      end
  end.

(** The [d[k].add(x)] idiom on a [defaultdict(set)]. *)
Definition dd_add `{Countable K, Countable V}
    (k : K) (x : V) (d : gmap K (gset V)) : gmap K (gset V) :=
  <[k := default ∅ (d !! k) ∪ {[x]}]> d.

End Py.

(** ** architecture_tracer.py *)

Module Tracer.
Import Py.

(** A log entry, seen through [entry.get('service')],
    [entry.get('endpoint')] and [entry.get('timestamp')]. *)
Record entry := {
  e_service : jstr;
  e_endpoint : jstr;
  e_timestamp : jstr
}.

(** An element of [endpoints_used]. *)
Record endpoint_use := {
  eu_service : jstr;
  eu_endpoint : jstr;
  eu_timestamp : jstr
}.

(** [journey_data]; [journey_name] is filled in by the caller. *)
Record journey := {
  correlation_id : string;
  j_services : list jstr;
  j_endpoints : list endpoint_use;
  start_service : jstr;
  end_service : jstr;
  service_count : Z;
  journey_name : jstr
}.

(** The attributes of an [ArchitectureTracer] that discovery updates. *)
Record tracer := {
  service_dependencies : gmap jstr (gset jstr);
  service_endpoints : gmap jstr (gset jstr);
  user_journeys : list journey;
  all_services : gset jstr
}.

(** [__init__]. *)
Definition init : tracer :=
  {| service_dependencies := ∅; service_endpoints := ∅;
     user_journeys := []; all_services := ∅ |}.

(** The variables of the loop in [analyze_trace]: the three locals and
    the three registries of [self] that the loop body updates. *)
Record loop_state := {
  services_in_order : list jstr;
  endpoints_used : list endpoint_use;
  previous_service : jstr;
  deps : gmap jstr (gset jstr);
  eps : gmap jstr (gset jstr);
  svcs : gset jstr
}.

(** One iteration of [for entry in trace]. *)
Definition step (st : loop_state) (e : entry) : loop_state :=
  let service := e_service e in
  let endpoint := e_endpoint e in
  (* Discover service *)
  let discover := truthy service && bool_decide (service ∉ services_in_order st) in
  let sio := if discover then services_in_order st ++ [service]
             else services_in_order st in
  let svcs' := if discover then svcs st ∪ {[service]} else svcs st in
  (* Discover endpoint *)
  let eu := if truthy endpoint
            then endpoints_used st ++
                 [{| eu_service := service; eu_endpoint := endpoint;
                     eu_timestamp := e_timestamp e |}]
            else endpoints_used st in
  let eps' := if truthy endpoint then dd_add service endpoint (eps st)
              else eps st in
  (* Infer dependency *)
  let deps' :=
    if truthy (previous_service st)
       && negb (bool_decide (previous_service st = service))
    then dd_add (previous_service st) service (deps st)
    else deps st in
  {| services_in_order := sio; endpoints_used := eu;
     previous_service := service;
     deps := deps'; eps := eps'; svcs := svcs' |}.

(** The whole loop, entered with empty locals and the registries of
    [self]. *)
Definition loop (t : tracer) (trace : list entry) : loop_state :=
  foldl step
    {| services_in_order := []; endpoints_used := []; previous_service := None;
       deps := service_dependencies t; eps := service_endpoints t;
       svcs := all_services t |}
    trace.

(** [analyze_trace]: returns [{}] (here [None]) on an empty trace, and
    otherwise the journey data together with the updated registries. *)
Definition analyze_trace (t : tracer) (cid : string) (trace : list entry)
  : tracer * option journey :=
  match trace with
  | [] => (t, None)
  | _ =>
      let st := loop t trace in
      let sio := services_in_order st in
      ({| service_dependencies := deps st; service_endpoints := eps st;
          user_journeys := user_journeys t; all_services := svcs st |},
       Some {| correlation_id := cid; j_services := sio;
               j_endpoints := endpoints_used st;
               start_service := default None (head sio);
               end_service := default None (last sio);
               service_count := Z.of_nat (length sio);
               journey_name := None |})
  end.

(** One iteration of the loop of [process_all_correlation_ids].  The
    trace is the list that [fetch_trace_from_splunk] returned for this
    correlation id; a failed fetch is the empty list. *)
Definition process_one (t : tracer) (j : string * string * list entry) : tracer :=
  let '(name, cid, trace) := j in
  match trace with
  | [] => t
  | _ =>
      match analyze_trace t cid trace with
      | (t', Some jd) =>
          match j_services jd with
          | [] => t'
          | _ =>
              {| service_dependencies := service_dependencies t';
                 service_endpoints := service_endpoints t';
                 user_journeys :=
                   user_journeys t' ++
                   [{| correlation_id := correlation_id jd;
                       j_services := j_services jd;
                       j_endpoints := j_endpoints jd;
                       start_service := start_service jd;
                       end_service := end_service jd;
                       service_count := service_count jd;
                       journey_name := Some name |}];
                 all_services := all_services t' |}
          end
      | (t', None) => t'
      end
  end.

Definition process_all_correlation_ids
    (t : tracer) (js : list (string * string * list entry)) : tracer :=
  foldl process_one t js.

(** The [metrics] object of an architecture document. *)
Record metrics := {
  total_services : Z;
  total_dependencies : Z;
  total_endpoints : Z;
  total_journeys : Z
}.

(** An architecture document (a Python [dict]).  The fields that readers
    access with [get(key, default)] are optional.  The two mappings are
    dictionaries in insertion order: lists of items with distinct keys.
    The entries [discovery_method] and [total_services], which nothing
    reads back, are left out. *)
Record architecture := {
  a_timestamp : string;
  a_services : option (list jstr);
  a_service_dependencies : option (list (jstr * list jstr));
  a_service_endpoints : option (list (jstr * list jstr));
  a_user_journeys : list journey;
  a_metrics : option metrics
}.

(** [sum(len(v) for v in d.values())]. *)
Definition total_size (d : gmap jstr (gset jstr)) : Z :=
  foldr Z.add 0 ((fun kv => Z.of_nat (size kv.2)) <$> map_to_list d).

(** [{service: list(v) for service, v in d.items()}].  [list(v)]
    enumerates a set in some order, here [elements]; the items come in
    the order of [map_to_list]. *)
Definition to_lists (d : gmap jstr (gset jstr)) : list (jstr * list jstr) :=
  (fun kv => (kv.1, elements kv.2)) <$> map_to_list d.

(** [build_architecture_map].  [now] is the reading of the clock. *)
Definition build_architecture_map (now : string) (t : tracer)
  : outcome architecture :=
  let dependencies_dict := to_lists (service_dependencies t) in
  let endpoints_dict := to_lists (service_endpoints t) in
  services ← sorted (elements (all_services t));
  Ret {| a_timestamp := now;
         a_services := Some services;
         a_service_dependencies := Some dependencies_dict;
         a_service_endpoints := Some endpoints_dict;
         a_user_journeys := user_journeys t;
         a_metrics :=
           Some {| total_services := Z.of_nat (size (all_services t));
                   total_dependencies := total_size (service_dependencies t);
                   total_endpoints := total_size (service_endpoints t);
                   total_journeys := Z.of_nat (length (user_journeys t)) |} |}.

End Tracer.

(** ** drift_detector.py *)

Module Detector.

(** [self.changes]: a dictionary that always carries the same six keys,
    each bound to a list of values. *)
Record changes := {
  services_added : list Py.jstr;
  services_removed : list Py.jstr;
  dependencies_added : list Py.jstr;
  dependencies_removed : list Py.jstr;
  endpoints_added : list Py.jstr;
  endpoints_removed : list Py.jstr
}.

Inductive severity := NO_CHANGE | LOW | MEDIUM | HIGH | CRITICAL.

(** Python's [len]. *)
Definition len {A} (l : list A) : Z := Z.of_nat (length l).

(** The weighted sum accumulated in the local variable [score]. *)
Definition weighted_sum (c : changes) : Z :=
  let score := 0 in
  let score := score + len (services_added c) * 15 in
  let score := score + len (services_removed c) * 20 in
  let score := score + len (dependencies_added c) * 7 in
  let score := score + len (dependencies_removed c) * 10 in
  let score := score + len (endpoints_added c) * 3 in
  let score := score + len (endpoints_removed c) * 5 in
  score.

(** [self.drift_score = min(score, 100)]. *)
Definition drift_score (c : changes) : Z := Z.min (weighted_sum c) 100.

(** The [if]/[elif] chain that sets [self.severity]. *)
Definition severity_of (drift_score : Z) : severity :=
  if drift_score =? 0 then NO_CHANGE
  else if drift_score <? 20 then LOW
  else if drift_score <? 50 then MEDIUM
  else if drift_score <? 80 then HIGH
  else CRITICAL.

(** [_calculate_drift_score]: both attributes it assigns. *)
Definition _calculate_drift_score (c : changes) : Z * severity :=
  let d := drift_score c in (d, severity_of d).

(** Position of a tier in the order
    NO_CHANGE < LOW < MEDIUM < HIGH < CRITICAL. *)
Definition rank (s : severity) : Z :=
  match s with
  | NO_CHANGE => 0 | LOW => 1 | MEDIUM => 2 | HIGH => 3 | CRITICAL => 4
  end.

End Detector.

(** ** hashlib.md5 *)

Module Hashlib.

(** Arithmetic on 32-bit words. *)
Definition w32 (x : Z) : Z := x mod 2 ^ 32.
Definition add32 (a b : Z) : Z := w32 (a + b).
Definition not32 (a : Z) : Z := Z.lxor a 0xffffffff.
Definition rotl32 (x c : Z) : Z :=
  Z.lor (w32 (Z.shiftl x c)) (Z.shiftr x (32 - c)).

(** The sine table. *)
Definition K : list Z := [
    0xd76aa478; 0xe8c7b756; 0x242070db; 0xc1bdceee;
    0xf57c0faf; 0x4787c62a; 0xa8304613; 0xfd469501;
    0x698098d8; 0x8b44f7af; 0xffff5bb1; 0x895cd7be;
    0x6b901122; 0xfd987193; 0xa679438e; 0x49b40821;
    0xf61e2562; 0xc040b340; 0x265e5a51; 0xe9b6c7aa;
    0xd62f105d; 0x02441453; 0xd8a1e681; 0xe7d3fbc8;
    0x21e1cde6; 0xc33707d6; 0xf4d50d87; 0x455a14ed;
    0xa9e3e905; 0xfcefa3f8; 0x676f02d9; 0x8d2a4c8a;
    0xfffa3942; 0x8771f681; 0x6d9d6122; 0xfde5380c;
    0xa4beea44; 0x4bdecfa9; 0xf6bb4b60; 0xbebfbc70;
    0x289b7ec6; 0xeaa127fa; 0xd4ef3085; 0x04881d05;
    0xd9d4d039; 0xe6db99e5; 0x1fa27cf8; 0xc4ac5665;
    0xf4292244; 0x432aff97; 0xab9423a7; 0xfc93a039;
    0x655b59c3; 0x8f0ccc92; 0xffeff47d; 0x85845dd1;
    0x6fa87e4f; 0xfe2ce6e0; 0xa3014314; 0x4e0811a1;
    0xf7537e82; 0xbd3af235; 0x2ad7d2bb; 0xeb86d391 ].

(** Per-round rotation amounts. *)
Definition R : list Z := [
    7; 12; 17; 22; 7; 12; 17; 22; 7; 12; 17; 22; 7; 12; 17; 22;
    5; 9; 14; 20; 5; 9; 14; 20; 5; 9; 14; 20; 5; 9; 14; 20;
    4; 11; 16; 23; 4; 11; 16; 23; 4; 11; 16; 23; 4; 11; 16; 23;
    6; 10; 15; 21; 6; 10; 15; 21; 6; 10; 15; 21; 6; 10; 15; 21 ].

Definition nthZ (l : list Z) (i : Z) : Z := default 0 (l !! Z.to_nat i).

(** Little-endian bytes of a word, and back. *)
Definition le_bytes (n : nat) (x : Z) : list Z :=
  (fun i => Z.shiftr x (8 * Z.of_nat i) mod 256) <$> seq 0 n.
Definition le_word (bs : list Z) : Z :=
  foldr (fun b acc => b + 256 * acc) 0 bs.

(** Message padding: a 1 bit, zeros up to 56 mod 64, the bit length. *)
Definition pad (msg : list Z) : list Z :=
  let n := Z.of_nat (length msg) in
  let zeros := Z.to_nat ((55 - n) mod 64) in
  msg ++ [0x80] ++ replicate zeros 0 ++ le_bytes 8 ((8 * n) mod 2 ^ 64).

Fixpoint blocks (fuel : nat) (size : nat) (l : list Z) : list (list Z) :=
  match fuel with
  | O => []
  | S fuel' => take size l :: blocks fuel' size (drop size l)
  end.

Definition words (block : list Z) : list Z :=
  le_word <$> blocks 16 4 block.

Definition round (M : list Z) (st : Z * Z * Z * Z) (i : Z) : Z * Z * Z * Z :=
  let '(A, B, C, D) := st in
  let '(F, g) :=
    if i <? 16 then (Z.lor (Z.land B C) (Z.land (not32 B) D), i)
    else if i <? 32 then (Z.lor (Z.land D B) (Z.land (not32 D) C), (5 * i + 1) mod 16)
    else if i <? 48 then (Z.lxor (Z.lxor B C) D, (3 * i + 5) mod 16)
    else (Z.lxor C (Z.lor B (not32 D)), (7 * i) mod 16) in
  let F := add32 (add32 (add32 F A) (nthZ K i)) (nthZ M g) in
  (D, add32 B (rotl32 F (nthZ R i)), B, C).

Definition compress (st : Z * Z * Z * Z) (block : list Z) : Z * Z * Z * Z :=
  let '(a0, b0, c0, d0) := st in
  let '(A, B, C, D) := foldl (round (words block)) st (Z.of_nat <$> seq 0 64) in
  (add32 a0 A, add32 b0 B, add32 c0 C, add32 d0 D).

Definition digest (msg : list Z) : list Z :=
  let p := pad msg in
  let '(a, b, c, d) :=
    foldl compress (0x67452301, 0xefcdab89, 0x98badcfe, 0x10325476)
      (blocks (length p / 64) 64 p) in
  le_bytes 4 a ++ le_bytes 4 b ++ le_bytes 4 c ++ le_bytes 4 d.

Definition hex_digit (d : Z) : ascii :=
  default "0"%char (String.get (Z.to_nat d) "0123456789abcdef").

Fixpoint hex (bs : list Z) : string :=
  match bs with
  | [] => ""
  | b :: bs' => String (hex_digit (b / 16)) (String (hex_digit (b mod 16)) (hex bs'))
  end.

(** [s.encode()] for a string of ASCII characters. *)
Fixpoint encode (s : string) : list Z :=
  match s with
  | EmptyString => []
  | String c s' => Z.of_N (Ascii.N_of_ascii c) :: encode s'
  end.

(** [hashlib.md5(s.encode()).hexdigest()]. *)
Definition md5_hexdigest (s : string) : string := hex (digest (encode s)).

End Hashlib.

(** ** json.dumps *)

Module Json.
Import Py.

Definition dq : ascii := "034"%char.
Definition backslash : ascii := "092"%char.

Definition hex2 (n : Z) : string :=
  String (Hashlib.hex_digit (n / 16)) (String (Hashlib.hex_digit (n mod 16)) "").

(** Escaping of one character with [ensure_ascii=True]. *)
Definition escape_char (c : ascii) : string :=
  let n := Z.of_N (N_of_ascii c) in
  if n =? 34 then String backslash (String dq "")
  else if n =? 92 then String backslash (String backslash "")
  else if n =? 10 then String backslash "n"
  else if n =? 13 then String backslash "r"
  else if n =? 9 then String backslash "t"
  else if n =? 12 then String backslash "f"
  else if n =? 8 then String backslash "b"
  else if (32 <=? n) && (n <=? 126) then String c ""
  else String backslash ("u00" +:+ hex2 n).

Fixpoint escape (s : string) : string :=
  match s with
  | EmptyString => ""
  | String c s' => escape_char c +:+ escape s'
  end.

Definition dumps_str (s : string) : string :=
  String dq (escape s +:+ String dq "").

Definition dumps_val (v : jstr) : string :=
  match v with
  | Some s => dumps_str s
  | None => "null"
  end.

Definition dumps_list (l : list jstr) : string :=
  "[" +:+ String.concat ", " (dumps_val <$> l) +:+ "]".

(** A key [None] is written as the string [null]. *)
Definition dumps_key (k : jstr) : string :=
  dumps_str (match k with Some s => s | None => "null" end).

(** Order on items with string keys: by key. *)
Definition item_le {V} (a b : string * V) : Prop := str_le a.1 b.1.

Global Instance item_le_dec {V} : RelDecision (@item_le V).
Proof. intros a b. unfold item_le. apply _. Defined.

Fixpoint str_items {V} (items : list (jstr * V)) : option (list (string * V)) :=
  match items with
  | [] => Some []
  | (Some k, v) :: items' => cons (k, v) <$> str_items items'
  | (None, _) :: _ => None
  end.

(** [sorted(d.items())], the effect of [sort_keys=True]: as for
    [Py.sorted], a key [None] among two or more items raises. *)
Definition sort_items {V} (items : list (jstr * V)) : outcome (list (jstr * V)) :=
  match items with
  | [] | [_] => Ret items
  | _ =>
      match str_items items with
      | Some si => Ret (prod_map Some id <$> merge_sort item_le si)
      | None => Raise TypeError
      end
  end.

Definition dumps_item (kv : jstr * list jstr) : string :=
  dumps_key kv.1 +:+ ": " +:+ dumps_list kv.2.

Definition dumps_dict (d : list (jstr * list jstr)) : outcome string :=
  items ← sort_items d;
  Ret ("{" +:+ String.concat ", " (dumps_item <$> items) +:+ "}").

(** [json.dumps({'services': s, 'dependencies': d, 'endpoints': e},
    sort_keys=True)]. *)
Definition dumps_arch (s : list jstr) (d e : list (jstr * list jstr))
  : outcome string :=
  ds ← dumps_dict d;
  es ← dumps_dict e;
  Ret ("{" +:+ dumps_str "dependencies" +:+ ": " +:+ ds +:+ ", "
           +:+ dumps_str "endpoints" +:+ ": " +:+ es +:+ ", "
           +:+ dumps_str "services" +:+ ": " +:+ dumps_list s +:+ "}").

End Json.

(** ** advanced_drift_tracker.py *)

Module Tracker.
Import Py.
Export Tracer.

(** A value of the [changes] dictionary. *)
Inductive cval :=
| CBool (b : bool)
| CList (l : list jstr).

(** An entry of the history. *)
Record snapshot := {
  s_timestamp : string;
  s_hash : string;
  s_architecture : architecture;
  s_metrics : option metrics;
  s_changes : gmap string cval;
  s_drift_score : Z
}.

(** What a JSON file holds: a document of the kind that is written to
    its path, or content that [json.load] rejects. *)
Inductive file (A : Type) :=
| Valid (doc : A)
| Corrupt (text : string).
Arguments Valid {A} doc.
Arguments Corrupt {A} text.

(** The files the tracker reads and writes: [drift_history.json] and
    the [snapshot_*.json] files in the history directory, and
    [discovered_architecture.json]. *)
Record files := {
  history_file : option (file (list snapshot));
  snapshot_files : gmap string snapshot;
  discovered_architecture : option (file architecture)
}.

(** The tracker object together with the file system. *)
Record tracker := {
  history : list snapshot;
  store : files
}.

(** [json.load] on an opened file. *)
Definition json_load {A} (f : file A) : outcome A :=
  match f with
  | Valid doc => Ret doc
  | Corrupt _ => Raise JSONDecodeError
  end.

(** [try: body except: handler] with a bare [except:] clause, which
    catches whatever the body raises. *)
Definition try_except {A} (body handler : outcome A) : outcome A :=
  match body with
  | Ret a => Ret a
  | Raise _ => handler
  end.

(** The line printed by [_load_history]. *)
Inductive load_message :=
| Loaded (n : nat)          (* "Loaded n historical snapshots" *)
| NoPreviousHistory         (* "No previous history found - starting fresh" *)
| CreatingNew.              (* "Creating new drift history" *)

(** [_load_history]: the new value of [self.history] and the line that
    is printed. *)
Definition _load_history (fs : files) : outcome (list snapshot * load_message) :=
  match history_file fs with
  | Some f =>
      try_except
        (h ← json_load f; Ret (h, Loaded (length h)))
        (Ret ([], NoPreviousHistory))
  | None => Ret ([], CreatingNew)
  end.

(** [__init__]. *)
Definition init (fs : files) : outcome tracker :=
  hm ← _load_history fs;
  Ret {| history := hm.1; store := fs |}.

(** [_save_history]. *)
Definition _save_history (t : tracker) : tracker :=
  {| history := history t;
     store := {| history_file := Some (Valid (history t));
                 snapshot_files := snapshot_files (store t);
                 discovered_architecture := discovered_architecture (store t) |} |}.

(** [{k: sorted(v) for k, v in d.items()}]. *)
Definition sorted_values (d : list (jstr * list jstr))
  : outcome (list (jstr * list jstr)) :=
  mapM (fun kv => v ← sorted kv.2; Ret (kv.1, v)) d.

(** [calculate_architecture_hash]. *)
Definition calculate_architecture_hash (a : architecture) : outcome string :=
  services ← sorted (default [] (a_services a));
  dependencies ← sorted_values (default [] (a_service_dependencies a));
  endpoints ← sorted_values (default [] (a_service_endpoints a));
  arch_string ← Json.dumps_arch services dependencies endpoints;
  Ret (Hashlib.md5_hexdigest arch_string).

(** [_flatten_dependencies]. *)
Definition _flatten_dependencies (d : list (jstr * list jstr)) : gset jstr :=
  list_to_set
    (kv ← d; (fun target => Some (py_str kv.1 +:+ " -> " +:+ py_str target)) <$> kv.2).

(** [_flatten_endpoints]. *)
Definition _flatten_endpoints (d : list (jstr * list jstr)) : gset jstr :=
  list_to_set
    (kv ← d; (fun endpoint => Some (py_str kv.1 +:+ ":" +:+ py_str endpoint)) <$> kv.2).

(** [_detect_changes]. *)
Definition _detect_changes (previous current : architecture) : gmap string cval :=
  let prev_services : gset jstr := list_to_set (default [] (a_services previous)) in
  let curr_services : gset jstr := list_to_set (default [] (a_services current)) in
  let prev_deps := _flatten_dependencies (default [] (a_service_dependencies previous)) in
  let curr_deps := _flatten_dependencies (default [] (a_service_dependencies current)) in
  let prev_endpoints := _flatten_endpoints (default [] (a_service_endpoints previous)) in
  let curr_endpoints := _flatten_endpoints (default [] (a_service_endpoints current)) in
  <["endpoints_removed" := CList (elements (prev_endpoints ∖ curr_endpoints))]>
  (<["endpoints_added" := CList (elements (curr_endpoints ∖ prev_endpoints))]>
  (<["dependencies_removed" := CList (elements (prev_deps ∖ curr_deps))]>
  (<["dependencies_added" := CList (elements (curr_deps ∖ prev_deps))]>
  (<["services_removed" := CList (elements (prev_services ∖ curr_services))]>
  (<["services_added" := CList (elements (curr_services ∖ prev_services))]> ∅))))).

(** [len(changes.get(key, []))]. *)
Definition len_get (changes : gmap string cval) (key : string) : outcome Z :=
  match changes !! key with
  | None => Ret 0
  | Some (CList l) => Ret (Z.of_nat (length l))
  | Some (CBool _) => Raise TypeError
  end.

(** [_calculate_drift_score]. *)
Definition _calculate_drift_score (changes : gmap string cval) : outcome Z :=
  let score := 0 in
  n ← len_get changes "services_added"; let score := score + n * 15 in
  n ← len_get changes "services_removed"; let score := score + n * 20 in
  n ← len_get changes "dependencies_added"; let score := score + n * 7 in
  n ← len_get changes "dependencies_removed"; let score := score + n * 10 in
  n ← len_get changes "endpoints_added"; let score := score + n * 3 in
  n ← len_get changes "endpoints_removed"; let score := score + n * 5 in
  Ret (Z.min score 100).

(** [os.path.join(history_dir, name)]. *)
Definition path_join (dir name : string) : string :=
  if String.eqb dir "" then name
  else if String.eqb (String.substring (String.length dir - 1) 1 dir) "/"
       then dir +:+ name
       else dir +:+ "/" +:+ name.

(** [capture_snapshot].  [now] and [stamp] are the two readings of the
    clock, formatted by [isoformat] and [strftime].  The result is the
    returned snapshot, [None] when nothing was captured. *)
Definition capture_snapshot (history_dir now stamp : string) (t : tracker)
  : outcome (tracker * option snapshot) :=
  match discovered_architecture (store t) with
  | None => Ret (t, None)
  | Some f =>
      current_arch ← json_load f;
      arch_hash ← calculate_architecture_hash current_arch;
      if bool_decide (s_hash <$> last (history t) = Some arch_hash)
      then Ret (t, None)
      else
        cd ← match last (history t) with
             | Some prev =>
                 let changes := _detect_changes (s_architecture prev) current_arch in
                 d ← _calculate_drift_score changes;
                 Ret (changes, d)
             | None => Ret ({["initial_snapshot" := CBool true]}, 0)
             end;
        let snapshot :=
          {| s_timestamp := now; s_hash := arch_hash;
             s_architecture := current_arch;
             s_metrics := a_metrics current_arch;
             s_changes := cd.1; s_drift_score := cd.2 |} in
        let history' := history t ++ [snapshot] in
        let snapshot_filename :=
          path_join history_dir ("snapshot_" +:+ stamp +:+ ".json") in
        let t' :=
          {| history := history';
             store := {| history_file := history_file (store t);
                         snapshot_files :=
                           <[snapshot_filename := snapshot]> (snapshot_files (store t));
                         discovered_architecture :=
                           discovered_architecture (store t) |} |} in
        Ret (_save_history t', Some snapshot)
  end.

End Tracker.

(** ** drift_detector.py: comparison, loading and exit status *)

Module Comparison.
Import Py Tracer Detector.

(** The attributes of an [ArchitectureDriftDetector]. *)
Record detector := {
  d_changes : changes;
  d_drift_score : Z;
  d_severity : severity
}.

(** [__init__]. *)
Definition init : detector :=
  {| d_changes := {| services_added := []; services_removed := [];
                     dependencies_added := []; dependencies_removed := [];
                     endpoints_added := []; endpoints_removed := [] |};
     d_drift_score := 0; d_severity := NO_CHANGE |}.

(** [_flatten_dependencies]. *)
Definition _flatten_dependencies (d : list (jstr * list jstr)) : gset jstr :=
  list_to_set
    (kv ← d; (fun target => Some (py_str kv.1 +:+ " -> " +:+ py_str target)) <$> kv.2).

(** [_flatten_endpoints]. *)
Definition _flatten_endpoints (d : list (jstr * list jstr)) : gset jstr :=
  list_to_set
    (kv ← d; (fun endpoint => Some (py_str kv.1 +:+ ":" +:+ py_str endpoint)) <$> kv.2).

(** [compare_architectures]: the detector after the call.  Every key of
    [self.changes] is assigned, then [_calculate_drift_score] sets the
    score and the severity. *)
Definition compare_architectures (self : detector)
    (baseline current : architecture) : detector :=
  let baseline_services : gset jstr := list_to_set (default [] (a_services baseline)) in
  let current_services : gset jstr := list_to_set (default [] (a_services current)) in
  let baseline_deps := _flatten_dependencies (default [] (a_service_dependencies baseline)) in
  let current_deps := _flatten_dependencies (default [] (a_service_dependencies current)) in
  let baseline_endpoints := _flatten_endpoints (default [] (a_service_endpoints baseline)) in
  let current_endpoints := _flatten_endpoints (default [] (a_service_endpoints current)) in
  let changes :=
    {| services_added := elements (current_services ∖ baseline_services);
       services_removed := elements (baseline_services ∖ current_services);
       dependencies_added := elements (current_deps ∖ baseline_deps);
       dependencies_removed := elements (baseline_deps ∖ current_deps);
       endpoints_added := elements (current_endpoints ∖ baseline_endpoints);
       endpoints_removed := elements (baseline_endpoints ∖ current_endpoints) |} in
  let '(score, sev) := _calculate_drift_score changes in
  {| d_changes := changes; d_drift_score := score; d_severity := sev |}.





End Comparison.

(** ** splunk_logger.py: the trace endpoint *)

Module Splunk.
Import Py.

(** The keys of an event object that the collector reads. *)
Record fields := {
  f_correlation_id : jstr;
  f_service : jstr;
  f_message : jstr;
  f_endpoint : jstr;
  f_user_id : jstr;
  f_level : jstr
}.

(** What [json.loads] gives on a stored string when it succeeds: an
    object, or a value without a [get] method. *)
Inductive parsed :=
| PObject (f : fields)
| POther.

(** The [event] of a stored log: an object, a string together with the
    result of [json.loads] on it ([None] when it raises), or any other
    value. *)
Inductive event :=
| EObject (f : fields)
| EString (text : string) (loads : option parsed)
| EOther.

(** An element of [logs_storage]. *)
Record log := {
  l_timestamp : string;
  l_sourcetype : string;
  l_event : event
}.

(** An element of the [trace] list of the response. *)
Record item := {
  i_timestamp : string;
  i_service : jstr;
  i_message : jstr;
  i_endpoint : jstr;
  i_user_id : jstr;
  i_level : jstr
}.

(** A response: status 200 with its payload, or status 500, which the
    handler returns for any exception. *)
Inductive response (A : Type) :=
| Ok200 (payload : A)
| Error500.
Arguments Ok200 {A} payload.
Arguments Error500 {A}.

(** The body of the loop of [trace_request] for one log: [None] is the
    exception raised by [event.get] on a value that is not an object;
    otherwise the items to append (none or one). *)
Definition visit (correlation_id : string) (l : log) : option (list item) :=
  let visit_object (f : fields) : list item :=
    if bool_decide (f_correlation_id f = Some correlation_id)
    then [{| i_timestamp := l_timestamp l; i_service := f_service f;
             i_message := f_message f; i_endpoint := f_endpoint f;
             i_user_id := f_user_id f; i_level := f_level f |}]
    else [] in
  match l_event l with
  | EObject f => Some (visit_object f)
  | EString _ None => Some []
  | EString _ (Some (PObject f)) => Some (visit_object f)
  | EString _ (Some POther) => None
  | EOther => None
  end.

(** The loop over [logs_storage]. *)
Fixpoint collect (correlation_id : string) (logs : list log) : option (list item) :=
  match logs with
  | [] => Some []
  | l :: logs' =>
      match visit correlation_id l with
      | None => None
      | Some found =>
          match collect correlation_id logs' with
          | None => None
          | Some rest => Some (found ++ rest)
          end
      end
  end.

(** [list.sort(key=lambda x: x['timestamp'])].  The sort is stable, so
    its result is that of a stable insertion sort. *)
Fixpoint insert_by_timestamp (x : item) (l : list item) : list item :=
  match l with
  | [] => [x]
  | y :: l' =>
      if bool_decide (str_le (i_timestamp x) (i_timestamp y))
      then x :: y :: l'
      else y :: insert_by_timestamp x l'
  end.

Definition sort_by_timestamp (l : list item) : list item :=
  foldr insert_by_timestamp [] l.

(** The payload of the response of [trace_request]. *)
Record trace_response := {
  r_correlation_id : string;
  r_trace : list item;
  r_services_involved : gset jstr
}.

(** [trace_request]. *)
Definition trace_request (logs_storage : list log) (correlation_id : string)
  : response trace_response :=
  match collect correlation_id logs_storage with
  | None => Error500
  | Some trace =>
      let trace := sort_by_timestamp trace in
      Ok200 {| r_correlation_id := correlation_id;
               r_trace := trace;
               r_services_involved :=
                 list_to_set (filter (fun v => truthy v = true) (i_service <$> trace)) |}
  end.

(** An item as [analyze_trace] reads it. *)
Definition to_entry (i : item) : Tracer.entry :=
  {| Tracer.e_service := i_service i; Tracer.e_endpoint := i_endpoint i;
     Tracer.e_timestamp := Some (i_timestamp i) |}.

(** [fetch_trace_from_splunk] against this collector.  The request
    goes to the URL [{splunk_url}/api/trace/{correlation_id}], with the
    id pasted in unescaped; what the HTTP client and the URL router make
    of that text is the parameter [route]: the id handed to
    [trace_request], which need not be [correlation_id], or [None] when
    the request raises or is answered by anything else than
    [trace_request].  Any exception and any status other than 200 give
    the empty list, and so does a response without a [trace] key, which
    no other handler of the collector sends. *)
Definition fetch_trace_from_splunk (route : string -> option string)
    (logs_storage : list log) (correlation_id : string) : list Tracer.entry :=
  match route correlation_id with
  | None => []
  | Some received =>
      match trace_request logs_storage received with
      | Ok200 data => to_entry <$> r_trace data
      | Error500 => []
      end
  end.

(** [process_all_correlation_ids] with the traces fetched from the
    collector. *)
Definition discover (route : string -> option string) (logs_storage : list log)
    (t : Tracer.tracer) (correlation_ids : list (string * string)) : Tracer.tracer :=
  Tracer.process_all_correlation_ids t
    ((fun nc => (nc.1, nc.2, fetch_trace_from_splunk route logs_storage nc.2))
       <$> correlation_ids).

End Splunk.

(** ** Notions used to state the properties *)

Module Notions.
Import Py Tracer.

(** [tgt] is a member of the set stored under key [src]. *)
Definition edge_in (d : gmap jstr (gset jstr)) (src tgt : jstr) : Prop :=
  ∃ s, d !! src = Some s ∧ tgt ∈ s.

(** Two events next to each other in a trace, the first on [src] and
    the second on [tgt]. *)
Definition consecutive (trace : list entry) (src tgt : jstr) : Prop :=
  ∃ i e1 e2, trace !! i = Some e1 ∧ trace !! S i = Some e2
             ∧ e_service e1 = src ∧ e_service e2 = tgt.

(** The same, where the list of services is preceded by [prev]. *)
Definition adjacent (prev : jstr) (trace : list entry) (src tgt : jstr) : Prop :=
  ∃ i, (prev :: (e_service <$> trace)) !! i = Some src
       ∧ (e_service <$> trace) !! i = Some tgt.

(** An event without a timestamp. *)
Definition ev (service endpoint : jstr) : entry :=
  {| e_service := service; e_endpoint := endpoint; e_timestamp := None |}.

(** The three registries of a tracer. *)
Definition registries (t : tracer) :=
  (service_dependencies t, service_endpoints t, all_services t).

(** Pointwise union of two registries. *)
Definition merge_sets (m1 m2 : gmap jstr (gset jstr)) : gmap jstr (gset jstr) :=
  union_with (fun a b => Some (a ∪ b)) m1 m2.

(** A loop state whose registries are enlarged by [D], [E] and [S]. *)
Definition shift (D E : gmap jstr (gset jstr)) (S : gset jstr)
    (st : loop_state) : loop_state :=
  {| services_in_order := services_in_order st;
     endpoints_used := endpoints_used st;
     previous_service := previous_service st;
     deps := merge_sets D (deps st);
     eps := merge_sets E (eps st);
     svcs := S ∪ svcs st |}.

(** Registries in which every dependency source, dependency target and
    endpoint owner is a known service, and no null value occurs. *)
Definition tidy (D E : gmap jstr (gset jstr)) (known : gset jstr) : Prop :=
  (None ∉ known)
  ∧ (∀ k s, D !! k = Some s → k ∈ known ∧ ∀ x, x ∈ s → x ∈ known)
  ∧ (∀ k s, E !! k = Some s → k ∈ known ∧ (None ∉ s)).

(** The invariant of the loop of [analyze_trace] on traces whose events
    all name a service. *)
Definition tidy_state (st : loop_state) : Prop :=
  tidy (deps st) (eps st) (svcs st)
  ∧ (∀ y, y ∈ services_in_order st → y ∈ svcs st)
  ∧ (truthy (previous_service st) = true → previous_service st ∈ svcs st).

(** Every event of every trace of the batch names a service. *)
Definition all_named (js : list (string * string * list entry)) : Prop :=
  ∀ j e, j ∈ js → e ∈ j.2 → truthy (e_service e) = true.

(** Items with the same key and the same values up to their order. *)
Definition same_item (a b : jstr * list jstr) : Prop :=
  a.1 = b.1 ∧ a.2 ≡ₚ b.2.

(** Dictionaries with the same items up to the order of the items and
    the order of the values of each item. *)
Definition same_dict (d1 d2 : list (jstr * list jstr)) : Prop :=
  ∃ d, d1 ≡ₚ d ∧ Forall2 same_item d d2.

(** A list of items is a dictionary when its keys are distinct. *)
Definition is_dict (d : list (jstr * list jstr)) : Prop := NoDup d.*1.

(** Two outcomes that both raise, or return lists equal up to order. *)
Definition outcome_perm {A} (o1 o2 : outcome (list A)) : Prop :=
  match o1, o2 with
  | Ret l1, Ret l2 => l1 ≡ₚ l2
  | Raise e1, Raise e2 => e1 = e2
  | _, _ => False
  end.

(** A dictionary seen as a mapping from keys to sets of values. *)
Definition set_view (d : list (jstr * list jstr)) : gmap jstr (gset jstr) :=
  list_to_map (prod_map id list_to_set <$> d).

(** Two documents whose three fields are equal as sets and as
    set-valued mappings. *)
Definition same_sets (a1 a2 : architecture) : Prop :=
  list_to_set (default [] (a_services a1)) =@{gset jstr}
    list_to_set (default [] (a_services a2))
  ∧ set_view (default [] (a_service_dependencies a1)) =
    set_view (default [] (a_service_dependencies a2))
  ∧ set_view (default [] (a_service_endpoints a1)) =
    set_view (default [] (a_service_endpoints a2)).

(** A document without journeys and metrics. *)
Definition doc (timestamp : string) (services : option (list jstr))
    (dependencies endpoints : option (list (jstr * list jstr))) : architecture :=
  {| a_timestamp := timestamp; a_services := services;
     a_service_dependencies := dependencies; a_service_endpoints := endpoints;
     a_user_journeys := []; a_metrics := None |}.

(** [fingerprint(infer(traces))]: discovery over a batch, then the
    fingerprint of the architecture that is built. *)
Definition fingerprint_of_discovery (now : string)
    (js : list (string * string * list entry)) : outcome string :=
  a ← build_architecture_map now (process_all_correlation_ids Tracer.init js);
  Tracker.calculate_architecture_hash a.

(** Two documents with the same three fields up to the order of list
    elements and of dictionary items. *)
Definition same_up_to_order (a1 a2 : architecture) : Prop :=
  default [] (a_services a1) ≡ₚ default [] (a_services a2)
  ∧ same_dict (default [] (a_service_dependencies a1))
              (default [] (a_service_dependencies a2))
  ∧ same_dict (default [] (a_service_endpoints a1))
              (default [] (a_service_endpoints a2)).

(** The [changes] dictionary with six empty lists. *)
Definition empty_diff : gmap string Tracker.cval :=
  <["endpoints_removed" := Tracker.CList []]>
  (<["endpoints_added" := Tracker.CList []]>
  (<["dependencies_removed" := Tracker.CList []]>
  (<["dependencies_added" := Tracker.CList []]>
  (<["services_removed" := Tracker.CList []]>
  (<["services_added" := Tracker.CList []]> ∅))))).

(** Closure of an architecture document: each key of either mapping and
    each dependency target is listed in [services]. *)
Definition closed (a : architecture) : Prop :=
  let services := default [] (a_services a) in
  let dependencies := default [] (a_service_dependencies a) in
  let endpoints := default [] (a_service_endpoints a) in
  (∀ kv, kv ∈ dependencies → kv.1 ∈ services)
  ∧ (∀ kv tgt, kv ∈ dependencies → tgt ∈ kv.2 → tgt ∈ services)
  ∧ (∀ kv, kv ∈ endpoints → kv.1 ∈ services).

End Notions.

(** ** Further notions *)

Module MoreNotions.
Import Py Tracer Tracker.

(** A history as [capture_snapshot] builds it: neighbouring entries
    have different hashes, each hash is the fingerprint of the stored
    architecture, each score lies in 0..100, and the first entry is the
    initial snapshot with score 0. *)
Definition consistent (h : list snapshot) : Prop :=
  (∀ i a b, h !! i = Some a → h !! S i = Some b → s_hash a ≠ s_hash b)
  ∧ (∀ e, e ∈ h →
          calculate_architecture_hash (s_architecture e) = Ret (s_hash e)
          ∧ 0 <= s_drift_score e <= 100)
  ∧ (∀ e, h !! 0%nat = Some e →
          s_changes e = {["initial_snapshot" := CBool true]}
          ∧ s_drift_score e = 0).

(** The trace has an event that names a service. *)
Definition named (trace : list entry) : Prop :=
  ∃ e, e ∈ trace ∧ truthy (e_service e) = true.

Global Instance named_dec trace : Decision (named trace).
Proof.
  refine (cast_if (decide (Exists (fun e => truthy (e_service e) = true) trace)));
    unfold named; rewrite Exists_exists in *; naive_solver.
Defined.

(** The record that [analyze_trace] appends to [endpoints_used]. *)
Definition use_of (e : entry) : endpoint_use :=
  {| eu_service := e_service e; eu_endpoint := e_endpoint e;
     eu_timestamp := e_timestamp e |}.

(** The number of items of all the lists of a dictionary. *)
Definition pairs (d : list (jstr * list jstr)) : Z :=
  Z.of_nat (length (concat (snd <$> d))).

(** Order of two trace items by timestamp. *)
Definition ts_le (a b : Splunk.item) : Prop :=
  str_le (Splunk.i_timestamp a) (Splunk.i_timestamp b).

(** The object held by the event of a log, directly or as the text of
    an object. *)
Definition object_of (l : Splunk.log) : option Splunk.fields :=
  match Splunk.l_event l with
  | Splunk.EObject f => Some f
  | Splunk.EString _ (Some (Splunk.PObject f)) => Some f
  | _ => None
  end.

(** The event of a log is a value on which [event.get] raises. *)
Definition not_an_object (l : Splunk.log) : Prop :=
  Splunk.l_event l = Splunk.EOther
  ∨ ∃ text, Splunk.l_event l = Splunk.EString text (Some Splunk.POther).

(** The items of the logs that hold an object with the given
    correlation id, in the order of the logs. *)
Definition matches (correlation_id : string) (logs : list Splunk.log)
  : list Splunk.item :=
  omap (fun l =>
          f ← object_of l;
          if bool_decide (Splunk.f_correlation_id f = Some correlation_id)
          then Some {| Splunk.i_timestamp := Splunk.l_timestamp l;
                       Splunk.i_service := Splunk.f_service f;
                       Splunk.i_message := Splunk.f_message f;
                       Splunk.i_endpoint := Splunk.f_endpoint f;
                       Splunk.i_user_id := Splunk.f_user_id f;
                       Splunk.i_level := Splunk.f_level f |}
          else None) logs.

(** A stored log whose event is an object. *)
Definition sample_log (timestamp cid service endpoint : string) : Splunk.log :=
  {| Splunk.l_timestamp := timestamp; Splunk.l_sourcetype := "http";
     Splunk.l_event :=
       Splunk.EObject
         {| Splunk.f_correlation_id := Some cid; Splunk.f_service := Some service;
            Splunk.f_message := None; Splunk.f_endpoint := Some endpoint;
            Splunk.f_user_id := None; Splunk.f_level := Some "INFO" |} |}.

End MoreNotions.

(** * Properties *)

Module DetectorFacts.
Import Detector.

Lemma len_nonneg {A} (l : list A) : 0 <= len l.
Proof. unfold len. lia. Qed.

Lemma weighted_sum_nonneg c : 0 <= weighted_sum c.
Proof.
  unfold weighted_sum.
  pose proof (len_nonneg (services_added c)).
  pose proof (len_nonneg (services_removed c)).
  pose proof (len_nonneg (dependencies_added c)).
  pose proof (len_nonneg (dependencies_removed c)).
  pose proof (len_nonneg (endpoints_added c)).
  pose proof (len_nonneg (endpoints_removed c)).
  lia.
Qed.

(** C1.  For every change set the drift score is the weighted sum
    15*|services_added| + 20*|services_removed| + 7*|dependencies_added|
    + 10*|dependencies_removed| + 3*|endpoints_added| + 5*|endpoints_removed|
    clamped at 100 (the sum itself when it is at most 100, the value 100
    otherwise, never a wrapped value), so it always lies in [0,100]. *)
Theorem drift_score_weighted_clamped (c : changes) :
  let total := 15 * len (services_added c) + 20 * len (services_removed c)
             + 7 * len (dependencies_added c) + 10 * len (dependencies_removed c)
             + 3 * len (endpoints_added c) + 5 * len (endpoints_removed c) in
  fst (_calculate_drift_score c) = Z.min total 100
  /\ (total <= 100 -> fst (_calculate_drift_score c) = total)
  /\ (100 < total -> fst (_calculate_drift_score c) = 100)
  /\ 0 <= fst (_calculate_drift_score c) <= 100.
Proof.
  intros total. cbn [_calculate_drift_score fst].
  assert (Hsum : weighted_sum c = total) by (unfold weighted_sum, total; lia).
  pose proof (weighted_sum_nonneg c) as Hpos.
  unfold drift_score. rewrite Hsum in *.
  repeat split; lia.
Qed.

(** C2.  On the score scale 0..100 the severity tier is NO_CHANGE exactly
    at 0, LOW exactly on 1..19, MEDIUM exactly on 20..49, HIGH exactly on
    50..79 and CRITICAL exactly on 80..100; and a larger score never gets
    a lower tier. *)
Theorem severity_tiers_monotone (s t : Z) :
  0 <= s <= 100 -> 0 <= t <= 100 ->
  (severity_of s = NO_CHANGE <-> s = 0)
  /\ (severity_of s = LOW <-> 1 <= s <= 19)
  /\ (severity_of s = MEDIUM <-> 20 <= s <= 49)
  /\ (severity_of s = HIGH <-> 50 <= s <= 79)
  /\ (severity_of s = CRITICAL <-> 80 <= s <= 100)
  /\ (s <= t -> rank (severity_of s) <= rank (severity_of t)).
Proof.
  intros Hs Ht. unfold severity_of.
  repeat match goal with
         | |- context [?a =? ?b] => destruct (Z.eqb_spec a b)
         | |- context [?a <? ?b] => destruct (Z.ltb_spec a b)
         end; cbn [rank];
  repeat split; intros; try discriminate; try lia.
Qed.

Lemma severity_tiers_monotone_witness :
  severity_of 22 = MEDIUM /\ rank (severity_of 22) <= rank (severity_of 60).
Proof.
  destruct (severity_tiers_monotone 22 60) as (_ & _ & Hm & _ & _ & Hle);
    [lia | lia |].
  split; [apply Hm; lia | apply Hle; lia].
Defined.

End DetectorFacts.

(** ** Sorting *)

Module PyFacts.
Import Py.

Lemma compare_le_trans a : ∀ b c,
  String.compare a b ≠ Gt → String.compare b c ≠ Gt → String.compare a c ≠ Gt.
Proof.
  induction a as [|x a IH]; intros [|y b] [|z c]; simpl; try done.
  unfold Ascii.compare.
  destruct (N.compare_spec (N_of_ascii x) (N_of_ascii y));
    destruct (N.compare_spec (N_of_ascii y) (N_of_ascii z));
    destruct (N.compare_spec (N_of_ascii x) (N_of_ascii z));
    try lia; try done; eauto.
Qed.

Lemma str_le_compare a b : str_le a b ↔ String.compare a b ≠ Gt.
Proof. unfold str_le, String.leb. by destruct (String.compare a b). Qed.

Global Instance str_le_trans : Transitive str_le.
Proof. intros a b c. rewrite !str_le_compare. apply compare_le_trans. Qed.

Global Instance str_le_total : Total str_le.
Proof. intros a b. apply String.leb_total. Qed.

Global Instance str_le_antisym : AntiSymm (=) str_le.
Proof. intros a b. apply String.leb_antisym. Qed.

(** Sorting strings gives one result per multiset. *)
Lemma sorted_str_perm l1 l2 : l1 ≡ₚ l2 → sorted_str l1 = sorted_str l2.
Proof.
  intros Hp. unfold sorted_str.
  apply (Sorted_unique str_le); try apply Sorted_merge_sort; try apply _.
  by rewrite !merge_sort_Permutation.
Qed.

Lemma all_str_perm l1 l2 :
  l1 ≡ₚ l2 → option_Forall2 (≡ₚ) (all_str l1) (all_str l2).
Proof.
  induction 1 as [|x l1 l2 Hp IH|x y l|l1 l2 l3 _ IH1 _ IH2].
  - by constructor.
  - destruct x as [s|]; simpl; [|constructor].
    destruct IH; constructor. by f_equiv.
  - destruct x as [s|], y as [s'|]; simpl; try constructor.
    destruct (all_str l); constructor. apply perm_swap.
  - destruct IH1; inversion IH2; simplify_eq; constructor. by etrans.
Qed.

(** [sorted] gives one result, or raises, per multiset. *)
Lemma sorted_perm l1 l2 : l1 ≡ₚ l2 → sorted l1 = sorted l2.
Proof.
  intros Hp. pose proof (Permutation_length Hp) as Hlen.
  destruct l1 as [|x1 [|y1 l1]].
  - by apply Permutation_nil in Hp as ->.
  - by apply Permutation_singleton_l in Hp as ->.
  - destruct l2 as [|x2 [|y2 l2]]; [done..|].
    unfold sorted. destruct (all_str_perm _ _ Hp) as [ss1 ss2 Hss|]; [|done].
    by rewrite (sorted_str_perm _ _ Hss).
Qed.

Lemma all_str_Some l ss : all_str l = Some ss → l = Some <$> ss.
Proof.
  revert ss. induction l as [|[s|] l IH]; intros ss; simpl; [by intros [= <-]| |done].
  destruct (all_str l) as [ss'|]; [|done]. intros [= <-]. cbn. f_equal. by apply IH.
Qed.

Lemma all_str_no_None l : None ∉ l → ∃ ss, all_str l = Some ss.
Proof.
  induction l as [|[s|] l IH]; intros Hn; simpl.
  - by eexists.
  - destruct IH as [ss ->]; [set_solver|]. by eexists.
  - set_solver.
Qed.

(** A result of [sorted] is a rearrangement of its argument. *)
Lemma sorted_Ret_perm l l' : sorted l = Ret l' → l' ≡ₚ l.
Proof.
  destruct l as [|x [|y l]]; [by intros [= <-]..|]. unfold sorted.
  destruct (all_str _) as [ss|] eqn:E; [|done]. intros [= <-].
  apply all_str_Some in E as ->. unfold sorted_str.
  by rewrite merge_sort_Permutation.
Qed.

(** [sorted] returns on lists without [None]. *)
Lemma sorted_no_None l : None ∉ l → ∃ l', sorted l = Ret l'.
Proof.
  intros Hn. destruct l as [|x [|y l]]; [by eexists..|]. unfold sorted.
  destruct (all_str_no_None _ Hn) as [ss ->]. by eexists.
Qed.

Lemma sorted_raises l e : sorted l = Raise e → e = TypeError.
Proof.
  destruct l as [|x [|y l]]; [done..|]. unfold sorted.
  destruct (all_str _); [done|]. by intros [= <-].
Qed.

End PyFacts.

(** ** Serialization and fingerprint *)

Module HashFacts.
Import Py Tracer Tracker Notions PyFacts.

Lemma sorted_values_cons kv d :
  sorted_values (kv :: d) =
  v ← sorted kv.2; bs ← sorted_values d; Ret ((kv.1, v) :: bs).
Proof.
  unfold sorted_values; cbn [mapM]. unfold mbind, outcome_bind.
  by destruct (sorted kv.2).
Qed.

Lemma sorted_values_raises d e : sorted_values d = Raise e → e = TypeError.
Proof.
  induction d as [|kv d IH]; [done|]. rewrite sorted_values_cons.
  unfold mbind, outcome_bind.
  destruct (sorted kv.2) eqn:E; [|intros [= <-]; by eapply sorted_raises].
  destruct (sorted_values d); [done|]. intros [= <-]. by apply IH.
Qed.

Lemma sorted_values_same d1 d2 :
  Forall2 same_item d1 d2 → sorted_values d1 = sorted_values d2.
Proof.
  induction 1 as [|a b d1 d2 [Hk Hv] _ IH]; [done|].
  by rewrite !sorted_values_cons, (sorted_perm _ _ Hv), Hk, IH.
Qed.

Lemma sorted_values_perm d1 d2 :
  d1 ≡ₚ d2 → outcome_perm (sorted_values d1) (sorted_values d2).
Proof.
  induction 1 as [|x l1 l2 Hp IH|x y l|l1 l2 l3 _ IH1 _ IH2].
  - by cbn.
  - rewrite !sorted_values_cons. unfold mbind, outcome_bind.
    destruct (sorted x.2); [|done].
    destruct (sorted_values l1), (sorted_values l2); try done.
    simpl in *. by f_equiv.
  - rewrite !sorted_values_cons. unfold mbind, outcome_bind.
    destruct (sorted x.2) eqn:Ex, (sorted y.2) eqn:Ey,
      (sorted_values l) eqn:El; simpl; try done; try apply perm_swap;
      repeat match goal with
             | H : sorted _ = Raise _ |- _ => apply sorted_raises in H
             | H : sorted_values _ = Raise _ |- _ => apply sorted_values_raises in H
             end; congruence.
  - unfold outcome_perm in *.
    destruct (sorted_values l1), (sorted_values l2), (sorted_values l3);
      try done; by etrans.
Qed.

Lemma sorted_values_keys d : ∀ d', sorted_values d = Ret d' → d'.*1 = d.*1.
Proof.
  induction d as [|kv d IH]; intros d'.
  - by intros [= <-].
  - rewrite sorted_values_cons. unfold mbind, outcome_bind.
    destruct (sorted kv.2); [|done]. destruct (sorted_values d); [|done].
    intros [= <-]. cbn. f_equal. by apply IH.
Qed.

Global Instance item_le_trans {V} : Transitive (@Json.item_le V).
Proof. intros a b c. unfold Json.item_le. apply str_le_trans. Qed.

Global Instance item_le_total {V} : Total (@Json.item_le V).
Proof. intros a b. unfold Json.item_le. apply str_le_total. Qed.

Lemma str_items_perm {V} (d1 d2 : list (jstr * V)) :
  d1 ≡ₚ d2 → option_Forall2 (≡ₚ) (Json.str_items d1) (Json.str_items d2).
Proof.
  induction 1 as [|x l1 l2 Hp IH|x y l|l1 l2 l3 _ IH1 _ IH2].
  - by constructor.
  - destruct x as [[k|] v]; simpl; [|constructor].
    destruct IH; constructor. by f_equiv.
  - destruct x as [[k|] v], y as [[k'|] v']; simpl; try constructor.
    destruct (Json.str_items l); constructor. apply perm_swap.
  - destruct IH1; inversion IH2; simplify_eq; constructor. by etrans.
Qed.

Lemma str_items_keys {V} (d : list (jstr * V)) : ∀ si,
  Json.str_items d = Some si → Some <$> si.*1 = d.*1.
Proof.
  induction d as [|[[k|] v] d IH]; intros si; simpl; [by intros [= <-]| |done].
  destruct (Json.str_items d); [|done]. intros [= <-]. cbn. f_equal. by apply IH.
Qed.

Lemma NoDup_keys_eq {K V} (l : list (K * V)) a b :
  NoDup l.*1 → a ∈ l → b ∈ l → a.1 = b.1 → a = b.
Proof.
  induction l as [|x l IH]; intros Hnd Ha Hb Hk; [by apply elem_of_nil in Ha|].
  apply NoDup_cons in Hnd as [Hx Hnd].
  apply elem_of_cons in Ha as [->|Ha]; apply elem_of_cons in Hb as [->|Hb].
  - done.
  - destruct Hx. rewrite Hk. apply list_elem_of_fmap. by exists b.
  - destruct Hx. rewrite <- Hk. apply list_elem_of_fmap. by exists a.
  - by apply IH.
Qed.

(** Sorting the items of a dictionary by key gives one result, or
    raises, whatever the order of the items. *)
Lemma sort_items_perm {V} (d1 d2 : list (jstr * V)) :
  NoDup d1.*1 → d1 ≡ₚ d2 → Json.sort_items d1 = Json.sort_items d2.
Proof.
  intros Hnd Hp. pose proof (Permutation_length Hp) as Hlen.
  destruct d1 as [|x1 [|y1 d1]].
  - by apply Permutation_nil in Hp as ->.
  - by apply Permutation_singleton_l in Hp as ->.
  - destruct d2 as [|x2 [|y2 d2]]; [done..|].
    unfold Json.sort_items.
    pose proof (str_items_keys (x1 :: y1 :: d1)) as Hkeys.
    destruct (str_items_perm _ _ Hp) as [si1 si2 Hsi|]; [|done].
    do 2 f_equal.
    apply (StronglySorted_unique_strong Json.item_le);
      try (apply StronglySorted_merge_sort; apply _);
      [|by rewrite !merge_sort_Permutation].
    intros a b Ha Hb Hab Hba.
    rewrite merge_sort_Permutation in Ha. rewrite merge_sort_Permutation, <- Hsi in Hb.
    assert (NoDup si1.*1) as Hnd'.
    { apply (NoDup_fmap_1 Some). by rewrite (Hkeys si1 eq_refl). }
    apply (NoDup_keys_eq si1); [done..|]. by apply (anti_symm str_le).
Qed.

Lemma dumps_dict_perm d1 d2 :
  is_dict d1 → d1 ≡ₚ d2 → Json.dumps_dict d1 = Json.dumps_dict d2.
Proof. intros Hnd Hp. unfold Json.dumps_dict. by rewrite (sort_items_perm d1 d2). Qed.

(** The canonical form of a dictionary and its serialization depend
    neither on the order of the items nor on the order of the values. *)
Lemma canonical_dict d1 d2 :
  is_dict d1 → same_dict d1 d2 →
  (c ← sorted_values d1; Json.dumps_dict c) = (c ← sorted_values d2; Json.dumps_dict c).
Proof.
  intros Hnd (d & Hp & Hsame).
  rewrite <- (sorted_values_same _ _ Hsame).
  pose proof (sorted_values_perm _ _ Hp) as Ho.
  pose proof (sorted_values_keys d1) as Hk.
  unfold outcome_perm, mbind, outcome_bind in *.
  destruct (sorted_values d1) as [c1|e1], (sorted_values d) as [c|e]; try done.
  - apply dumps_dict_perm; [|done]. unfold is_dict. by rewrite (Hk c1 eq_refl).
  - by subst.
Qed.

Lemma sorted_values_returns d :
  (∀ kv, kv ∈ d → None ∉ kv.2) → ∃ c, sorted_values d = Ret c.
Proof.
  induction d as [|kv d IH]; intros Hall; [by eexists|].
  rewrite sorted_values_cons. unfold mbind, outcome_bind.
  destruct (sorted_no_None kv.2) as [v ->]; [apply Hall; by left|].
  destruct IH as [c ->]; [intros kv' Hkv'; apply Hall; by right|]. by eexists.
Qed.

Lemma str_items_returns {V} (d : list (jstr * V)) :
  None ∉ d.*1 → ∃ si, Json.str_items d = Some si.
Proof.
  induction d as [|[[k|] v] d IH]; intros Hn; simpl.
  - by eexists.
  - destruct IH as [si ->]; [set_solver|]. by eexists.
  - set_solver.
Qed.

(** Serializing a dictionary whose keys are all strings returns. *)
Lemma dumps_dict_returns d : None ∉ d.*1 → ∃ s, Json.dumps_dict d = Ret s.
Proof.
  intros Hn. unfold Json.dumps_dict, Json.sort_items, mbind, outcome_bind.
  destruct d as [|x [|y d]]; [by eexists..|].
  destruct (str_items_returns _ Hn) as [si ->]. by eexists.
Qed.

Lemma sorted_values_same_dict d1 d2 :
  same_dict d1 d2 → outcome_perm (sorted_values d1) (sorted_values d2).
Proof.
  intros (d & Hp & Hsame). rewrite <- (sorted_values_same _ _ Hsame).
  by apply sorted_values_perm.
Qed.

Lemma sorted_values_is_dict d c : is_dict d → sorted_values d = Ret c → is_dict c.
Proof. unfold is_dict. intros Hd Hc. by rewrite (sorted_values_keys d c Hc). Qed.

(** The fingerprint is determined by the three fields up to order. *)
Lemma hash_congruence a1 a2 :
  is_dict (default [] (a_service_dependencies a1)) →
  is_dict (default [] (a_service_endpoints a1)) →
  default [] (a_services a1) ≡ₚ default [] (a_services a2) →
  same_dict (default [] (a_service_dependencies a1))
            (default [] (a_service_dependencies a2)) →
  same_dict (default [] (a_service_endpoints a1))
            (default [] (a_service_endpoints a2)) →
  calculate_architecture_hash a1 = calculate_architecture_hash a2.
Proof.
  intros Hd He Hs Hsd Hse. unfold calculate_architecture_hash.
  rewrite (sorted_perm _ _ Hs).
  apply sorted_values_same_dict in Hsd, Hse.
  pose proof (fun c => sorted_values_is_dict _ c Hd) as Hd'.
  pose proof (fun c => sorted_values_is_dict _ c He) as He'.
  unfold outcome_perm, mbind, outcome_bind in *.
  destruct (sorted (default [] (a_services a2))) as [s|]; [|done].
  destruct (sorted_values (default [] (a_service_dependencies a1))) as [c1|],
    (sorted_values (default [] (a_service_dependencies a2))) as [c2|];
    try done; [|by subst].
  destruct (sorted_values (default [] (a_service_endpoints a1))) as [c1'|],
    (sorted_values (default [] (a_service_endpoints a2))) as [c2'|];
    try done; [|by subst].
  unfold Json.dumps_arch, mbind, outcome_bind.
  rewrite (dumps_dict_perm c1 c2), (dumps_dict_perm c1' c2'); auto.
Qed.

(** C5 (as amended).  Two architecture documents whose [services] lists
    are equal up to order, and whose [service_dependencies] and
    [service_endpoints] mappings have the same keys with value lists
    equal up to order (whatever the order of the keys), have the same
    fingerprint, whatever their [timestamp], [user_journeys] and
    [metrics]: the fingerprint is a function of the three fields only. *)
Theorem fingerprint_of_three_fields a1 a2 :
  is_dict (default [] (a_service_dependencies a1)) →
  is_dict (default [] (a_service_endpoints a1)) →
  default [] (a_services a1) ≡ₚ default [] (a_services a2) →
  same_dict (default [] (a_service_dependencies a1))
            (default [] (a_service_dependencies a2)) →
  same_dict (default [] (a_service_endpoints a1))
            (default [] (a_service_endpoints a2)) →
  calculate_architecture_hash a1 = calculate_architecture_hash a2.
Proof. apply hash_congruence. Qed.

Lemma fingerprint_of_three_fields_witness :
  calculate_architecture_hash
    (doc "2025-01-01T10:00:00" (Some [Some "product"; Some "auth"])
       (Some [(Some "product", [Some "payment"; Some "cart"]); (Some "auth", [])])
       (Some [(Some "auth", [Some "/login"])]))
  = calculate_architecture_hash
      {| a_timestamp := "2025-02-02T20:00:00";
         a_services := Some [Some "auth"; Some "product"];
         a_service_dependencies :=
           Some [(Some "auth", []); (Some "product", [Some "cart"; Some "payment"])];
         a_service_endpoints := Some [(Some "auth", [Some "/login"])];
         a_user_journeys := [];
         a_metrics := Some {| total_services := 2; total_dependencies := 2;
                              total_endpoints := 1; total_journeys := 0 |} |}.
Proof.
  apply fingerprint_of_three_fields; cbn [doc default a_services
    a_service_dependencies a_service_endpoints].
  - unfold is_dict. cbn. rewrite !NoDup_cons, !elem_of_cons, elem_of_nil.
    split; [|split; [apply not_elem_of_nil|apply NoDup_nil_2]].
    by intros [H|[]].
  - unfold is_dict. cbn. rewrite !NoDup_cons.
    split; [apply not_elem_of_nil|apply NoDup_nil_2].
  - apply perm_swap.
  - exists [(Some "auth", []); (Some "product", [Some "payment"; Some "cart"])].
    split; [apply perm_swap|].
    repeat constructor.
  - exists [(Some "auth", [Some "/login"])]. split; [done|]. by repeat constructor.
Defined.

(** C5, counterexample to the claim as stated: the [services] lists
    [auth, auth] and [auth] are equal as sets, and the mappings are the
    same, yet the two fingerprints differ, since the hashed list is
    sorted but keeps repeated elements. *)
Lemma fingerprint_differs_on_equal_sets :
  let a1 := doc "2025-01-01T10:00:00" (Some [Some "auth"; Some "auth"]) (Some []) (Some []) in
  let a2 := doc "2025-01-01T10:00:00" (Some [Some "auth"]) (Some []) (Some []) in
  same_sets a1 a2
  ∧ calculate_architecture_hash a1 = Ret "e9d910d7ad9d7bf8202b95a085d3ea59"
  ∧ calculate_architecture_hash a2 = Ret "e49d88efa04d4b425f49d9b4ca53bf0a"
  ∧ calculate_architecture_hash a1 ≠ calculate_architecture_hash a2.
Proof.
  intros a1 a2. split; [|split; [|split]].
  - split; [|done]. subst a1 a2. cbn. set_solver.
  - vm_compute. reflexivity.
  - vm_compute. reflexivity.
  - vm_compute. discriminate.
Qed.

End HashFacts.

(** ** Trace analysis *)

Module TracerFacts.
Import Py Tracer Notions.

Lemma edge_in_dd_add k x d src tgt :
  edge_in (dd_add k x d) src tgt ↔ edge_in d src tgt ∨ (src = k ∧ tgt = x).
Proof.
  unfold edge_in, dd_add. split.
  - intros (s & Hs & Hin). destruct (decide (k = src)) as [->|Hne].
    + rewrite lookup_insert_eq in Hs. simplify_eq.
      apply elem_of_union in Hin as [Hin|Hin].
      * left. destruct (d !! src) as [s0|] eqn:E; simpl in Hin; [eauto|set_solver].
      * right. set_solver.
    + rewrite lookup_insert_ne in Hs by done. eauto.
  - intros [(s & Hs & Hin)|[-> ->]].
    + destruct (decide (k = src)) as [->|Hne].
      * rewrite lookup_insert_eq, Hs. eexists; split; [done|]. set_solver.
      * rewrite lookup_insert_ne by done. eauto.
    + rewrite lookup_insert_eq. eexists; split; [done|]. set_solver.
Qed.

Lemma adjacent_cons prev e trace src tgt :
  adjacent prev (e :: trace) src tgt ↔
  (src = prev ∧ tgt = e_service e) ∨ adjacent (e_service e) trace src tgt.
Proof.
  unfold adjacent. split.
  - intros ([|i] & H1 & H2); simpl in *.
    + left. by simplify_eq.
    + right. eauto.
  - intros [[-> ->]|(i & H1 & H2)].
    + by exists 0%nat.
    + by exists (S i).
Qed.

Lemma adjacent_nil prev src tgt : ¬ adjacent prev [] src tgt.
Proof. intros (i & _ & H). by rewrite fmap_nil, lookup_nil in H. Qed.

Lemma deps_step st e src tgt :
  edge_in (deps (step st e)) src tgt ↔
  edge_in (deps st) src tgt
  ∨ (src = previous_service st ∧ tgt = e_service e
     ∧ truthy src = true ∧ src ≠ tgt).
Proof.
  unfold step; cbn [deps].
  destruct (truthy (previous_service st)) eqn:Ht; cbn [andb].
  - case_bool_decide as Heq; cbn [negb].
    + split; [by left|]. intros [?|(-> & -> & _ & Hne)]; [done|]. by destruct Hne.
    + rewrite edge_in_dd_add. split.
      * intros [?|[-> ->]]; [by left|]. right. done.
      * intros [?|(-> & -> & _)]; [by left|by right].
  - split; [by left|]. intros [?|(-> & _ & Ht' & _)]; [done|congruence].
Qed.

(** The dependency registry after the loop, from any loop state. *)
Lemma deps_foldl trace : ∀ st src tgt,
  edge_in (deps (foldl step st trace)) src tgt ↔
  edge_in (deps st) src tgt
  ∨ (truthy src = true ∧ src ≠ tgt ∧ adjacent (previous_service st) trace src tgt).
Proof.
  induction trace as [|e trace IH]; intros st src tgt; cbn [foldl].
  - split; [by left|]. intros [?|(_ & _ & H)]; [done|]. by apply adjacent_nil in H.
  - rewrite IH, deps_step, adjacent_cons.
    change (previous_service (step st e)) with (e_service e).
    intuition congruence.
Qed.

Lemma adjacent_None trace src tgt :
  truthy src = true → adjacent None trace src tgt ↔ consecutive trace src tgt.
Proof.
  intros Ht. unfold adjacent, consecutive. split.
  - intros ([|i] & H1 & H2); simpl in H1.
    + by simplify_eq.
    + rewrite list_lookup_fmap in H1, H2.
      destruct (trace !! i) as [e1|] eqn:E1; [|done].
      destruct (trace !! S i) as [e2|] eqn:E2; [|done].
      simpl in *. simplify_eq. by exists i, e1, e2.
  - intros (i & e1 & e2 & H1 & H2 & <- & <-). exists (S i). simpl.
    by rewrite !list_lookup_fmap, H1, H2.
Qed.

Lemma eps_step st e k ep :
  edge_in (eps (step st e)) k ep ↔
  edge_in (eps st) k ep
  ∨ (k = e_service e ∧ ep = e_endpoint e ∧ truthy ep = true).
Proof.
  unfold step; cbn [eps]. destruct (truthy (e_endpoint e)) eqn:Ht.
  - rewrite edge_in_dd_add. naive_solver.
  - split; [by left|]. intros [?|(_ & -> & ?)]; [done|congruence].
Qed.

(** The endpoint registry after the loop. *)
Lemma eps_foldl trace : ∀ st k ep,
  edge_in (eps (foldl step st trace)) k ep ↔
  edge_in (eps st) k ep
  ∨ (truthy ep = true ∧ ∃ e, e ∈ trace ∧ e_service e = k ∧ e_endpoint e = ep).
Proof.
  induction trace as [|e trace IH]; intros st k ep; cbn [foldl].
  - split; [by left|]. intros [?|(_ & e & He & _)]; [done|]. by apply elem_of_nil in He.
  - rewrite IH, eps_step. setoid_rewrite elem_of_cons. naive_solver.
Qed.

(** Only truthy services of the trace enter the set of services. *)
Lemma svcs_foldl_inv trace : ∀ st x,
  x ∈ svcs (foldl step st trace) →
  x ∈ svcs st ∨ (truthy x = true ∧ ∃ e, e ∈ trace ∧ e_service e = x).
Proof.
  induction trace as [|e trace IH]; intros st x; cbn [foldl]; [by left|].
  intros [Hx|(Ht & e' & He' & Hs)]%IH.
  - unfold step in Hx; cbn [svcs] in Hx.
    destruct (truthy (e_service e)) eqn:Ht; cbn [andb] in Hx; [|by left].
    case_bool_decide; [|by left].
    apply elem_of_union in Hx as [?|Hx]; [by left|].
    apply elem_of_singleton in Hx as ->.
    right. split; [done|]. exists e. split; [left|done].
  - right. split; [done|]. exists e'. split; [by right|done].
Qed.

(** Every truthy service of the trace enters the set of services. *)
Lemma svcs_foldl_intro trace : ∀ st x,
  (∀ y, y ∈ services_in_order st → y ∈ svcs st) →
  x ∈ svcs st ∨ (truthy x = true ∧ ∃ e, e ∈ trace ∧ e_service e = x) →
  x ∈ svcs (foldl step st trace).
Proof.
  induction trace as [|e trace IH]; intros st x Hinv; cbn [foldl].
  - intros [?|(_ & e & He & _)]; [done|]. by apply elem_of_nil in He.
  - intros H. apply IH.
    + intros y. unfold step; cbn [services_in_order svcs].
      destruct (truthy (e_service e) && _); [|by apply Hinv].
      rewrite elem_of_app, list_elem_of_singleton. set_solver.
    + destruct H as [Hx|(Ht & e' & [->|He']%elem_of_cons & Hs)].
      * left. unfold step; cbn [svcs]. destruct (_ && _); set_solver.
      * left. unfold step; cbn [svcs]. rewrite Hs, Ht; cbn [andb].
        case_bool_decide as Hin; [set_solver|].
        by apply Hinv.
      * right. eauto.
Qed.

Lemma merge_sets_lookup a b k :
  merge_sets a b !! k = union_with (fun x y => Some (x ∪ y)) (a !! k) (b !! k).
Proof. apply lookup_union_with. Qed.

Lemma merge_sets_empty_r a : merge_sets a ∅ = a.
Proof.
  apply map_eq. intros k. rewrite merge_sets_lookup, lookup_empty.
  by destruct (a !! k).
Qed.

Lemma dd_add_merge k x D d :
  dd_add k x (merge_sets D d) = merge_sets D (dd_add k x d).
Proof.
  apply map_eq. intros j. unfold dd_add.
  destruct (decide (k = j)) as [->|Hne].
  - repeat (rewrite merge_sets_lookup || rewrite lookup_insert_eq).
    destruct (D !! j), (d !! j); cbn; f_equal; set_solver.
  - repeat (rewrite merge_sets_lookup || rewrite lookup_insert_ne by done). done.
Qed.

Lemma merge_sets_swap D a b :
  merge_sets (merge_sets D a) b = merge_sets (merge_sets D b) a.
Proof.
  apply map_eq. intros k. rewrite !merge_sets_lookup.
  destruct (D !! k), (a !! k), (b !! k); cbn; f_equal; set_solver.
Qed.

Lemma step_shift D E S st e : step (shift D E S st) e = shift D E S (step st e).
Proof.
  unfold step, shift;
    cbn [deps eps svcs services_in_order endpoints_used previous_service].
  f_equal.
  - destruct (_ && _); [|done]. by rewrite dd_add_merge.
  - destruct (truthy (e_endpoint e)); [|done]. by rewrite dd_add_merge.
  - destruct (_ && _); [|done]. by rewrite (assoc_L (∪)).
Qed.

Lemma foldl_shift D E S trace : ∀ st,
  foldl step (shift D E S st) trace = shift D E S (foldl step st trace).
Proof.
  induction trace as [|e trace IH]; intros st; cbn [foldl]; [done|].
  by rewrite step_shift, IH.
Qed.

(** Analysing a trace adds to the registries what the trace alone
    contributes. *)
Lemma loop_shift t trace :
  loop t trace =
  shift (service_dependencies t) (service_endpoints t) (all_services t)
    (loop Tracer.init trace).
Proof.
  unfold loop. rewrite <- foldl_shift. f_equal.
  unfold shift; cbn. by rewrite !merge_sets_empty_r, (right_id_L ∅ (∪)).
Qed.

Lemma analyze_trace_registries t cid trace :
  service_dependencies (analyze_trace t cid trace).1 = deps (loop t trace)
  ∧ service_endpoints (analyze_trace t cid trace).1 = eps (loop t trace)
  ∧ all_services (analyze_trace t cid trace).1 = svcs (loop t trace).
Proof. by destruct trace. Qed.

Lemma process_one_registries t name cid trace :
  service_dependencies (process_one t (name, cid, trace)) = deps (loop t trace)
  ∧ service_endpoints (process_one t (name, cid, trace)) = eps (loop t trace)
  ∧ all_services (process_one t (name, cid, trace)) = svcs (loop t trace).
Proof.
  destruct trace as [|e trace]; [done|].
  unfold process_one. cbn [analyze_trace]. by destruct (services_in_order _).
Qed.

(** Edges recorded while analysing one trace, from any tracer. *)
Lemma recorded_edges t cid trace src tgt :
  edge_in (service_dependencies (analyze_trace t cid trace).1) src tgt ↔
  edge_in (service_dependencies t) src tgt
  ∨ (consecutive trace src tgt ∧ truthy src = true ∧ src ≠ tgt).
Proof.
  destruct (analyze_trace_registries t cid trace) as (-> & _ & _).
  unfold loop. rewrite deps_foldl. cbn [deps previous_service].
  split; (intros [?|H]; [by left|right]).
  - destruct H as (Ht & Hne & Hadj). by apply adjacent_None in Hadj.
  - destruct H as (Hc & Ht & Hne). by apply adjacent_None in Hc.
Qed.

Lemma edge_in_empty src tgt : ¬ edge_in ∅ src tgt.
Proof. intros (s & Hs & _). by rewrite lookup_empty in Hs. Qed.

(** Edges recorded while processing a batch of journeys: no edge joins
    events of two different traces. *)
Lemma batch_edges js : ∀ t src tgt,
  edge_in (service_dependencies (process_all_correlation_ids t js)) src tgt ↔
  edge_in (service_dependencies t) src tgt
  ∨ ∃ j, j ∈ js ∧ consecutive j.2 src tgt ∧ truthy src = true ∧ src ≠ tgt.
Proof.
  unfold process_all_correlation_ids.
  induction js as [|[[name cid] trace] js IH]; intros t src tgt; cbn [foldl].
  - split; [by left|]. intros [?|(j & Hj & _)]; [done|]. by apply elem_of_nil in Hj.
  - rewrite IH. destruct (process_one_registries t name cid trace) as (-> & _ & _).
    destruct (analyze_trace_registries t cid trace) as (<- & _ & _).
    rewrite recorded_edges. setoid_rewrite elem_of_cons. split.
    + intros [[?|H]|(j & Hj & H)]; [by left| |].
      * right. exists (name, cid, trace). split; [by left|done].
      * right. exists j. split; [by right|done].
    + intros [?|(j & [->|Hj] & H)]; [by left; left| |].
      * left; right. done.
      * right. eauto.
Qed.

Lemma dd_add_lookup (k x : jstr) (d : gmap jstr (gset jstr)) j s :
  dd_add k x d !! j = Some s →
  (j = k ∧ s = default ∅ (d !! k) ∪ {[x]}) ∨ (j ≠ k ∧ d !! j = Some s).
Proof.
  unfold dd_add. destruct (decide (k = j)) as [->|Hne].
  - rewrite lookup_insert_eq. intros [= <-]. by left.
  - rewrite lookup_insert_ne by done. intros ?. right. split; [congruence|done].
Qed.

Lemma truthy_not_None v : truthy v = true → v ≠ None.
Proof. by destruct v. Qed.

(** One iteration on an event that names a service keeps the registries
    tidy. *)
Lemma step_tidy st e :
  truthy (e_service e) = true → tidy_state st → tidy_state (step st e).
Proof.
  intros Ht ((Hn & Hd & He) & Hsio & Hprev).
  assert (∀ y, y ∈ svcs st → y ∈ svcs (step st e)) as Hmono.
  { intros y Hy. unfold step; cbn [svcs]. destruct (_ && _); set_solver. }
  assert (e_service e ∈ svcs (step st e)) as Hin.
  { unfold step; cbn [svcs]. rewrite Ht; cbn [andb].
    case_bool_decide as Hs; [set_solver|by apply Hsio]. }
  split; [split; [|split]|split].
  - unfold step; cbn [svcs]. rewrite Ht; cbn [andb].
    apply truthy_not_None in Ht. case_bool_decide; set_solver.
  - intros k s. unfold step at 1; cbn [deps].
    destruct (truthy (previous_service st)) eqn:Hp; cbn [andb];
      [case_bool_decide; cbn [negb]|].
    + intros Hk. destruct (Hd k s Hk) as [? Hs]. split; [auto|]. intros x Hx. auto.
    + intros [[-> ->]|[_ Hk]]%dd_add_lookup.
      * split; [by apply Hmono, Hprev|]. intros x [Hx|Hx]%elem_of_union.
        -- destruct (deps st !! previous_service st) as [s0|] eqn:E; cbn in Hx;
             [|set_solver]. destruct (Hd _ _ E) as [_ Hs]. auto.
        -- apply elem_of_singleton in Hx as ->. done.
      * destruct (Hd k s Hk) as [? Hs]. split; [auto|]. intros x Hx. auto.
    + intros Hk. destruct (Hd k s Hk) as [? Hs]. split; [auto|]. intros x Hx. auto.
  - intros k s. unfold step at 1; cbn [eps].
    destruct (truthy (e_endpoint e)) eqn:Hep.
    + intros [[-> ->]|[_ Hk]]%dd_add_lookup.
      * split; [done|]. intros [Hx|Hx]%elem_of_union.
        -- destruct (eps st !! e_service e) as [s0|] eqn:E; cbn in Hx;
             [|set_solver]. by destruct (He _ _ E) as [_ Hs].
        -- apply elem_of_singleton in Hx. apply truthy_not_None in Hep. congruence.
      * destruct (He k s Hk) as [? Hs]. split; [auto|done].
    + intros Hk. destruct (He k s Hk) as [? Hs]. split; [auto|done].
  - intros y. unfold step; cbn [services_in_order svcs].
    destruct (_ && _); [|by apply Hsio].
    rewrite elem_of_app, list_elem_of_singleton. set_solver.
  - intros _. done.
Qed.

Lemma foldl_tidy trace : ∀ st,
  (∀ e, e ∈ trace → truthy (e_service e) = true) →
  tidy_state st → tidy_state (foldl step st trace).
Proof.
  induction trace as [|e trace IH]; intros st Hall Hst; cbn [foldl]; [done|].
  apply IH; [intros e' He'; apply Hall; by right|].
  apply step_tidy; [apply Hall; by left|done].
Qed.

Lemma process_one_tidy t j :
  (∀ e, e ∈ j.2 → truthy (e_service e) = true) →
  tidy (service_dependencies t) (service_endpoints t) (all_services t) →
  tidy (service_dependencies (process_one t j)) (service_endpoints (process_one t j))
       (all_services (process_one t j)).
Proof.
  destruct j as [[name cid] trace]. intros Hall Ht.
  destruct (process_one_registries t name cid trace) as (-> & -> & ->).
  apply (foldl_tidy trace); [done|].
  split; [done|split; [intros y Hy; by apply elem_of_nil in Hy|done]].
Qed.

(** A batch in which every event names a service leaves tidy
    registries. *)
Lemma batch_tidy js : ∀ t,
  all_named js →
  tidy (service_dependencies t) (service_endpoints t) (all_services t) →
  let t' := process_all_correlation_ids t js in
  tidy (service_dependencies t') (service_endpoints t') (all_services t').
Proof.
  unfold process_all_correlation_ids.
  induction js as [|j js IH]; intros t Hall Ht; cbn [foldl]; [done|].
  apply IH.
  - intros j' e Hj'. apply Hall. by right.
  - apply process_one_tidy; [|done]. intros e. apply Hall. by left.
Qed.

(** Whatever the events, the null value never enters the services. *)
Lemma batch_no_None js : ∀ t,
  None ∉ all_services t → None ∉ all_services (process_all_correlation_ids t js).
Proof.
  unfold process_all_correlation_ids.
  induction js as [|[[name cid] trace] js IH]; intros t Ht; cbn [foldl]; [done|].
  apply IH. destruct (process_one_registries t name cid trace) as (_ & _ & ->).
  unfold loop. intros [H|[H _]]%svcs_foldl_inv; [done|discriminate H].
Qed.

Lemma process_one_registries_eq t t' j :
  registries t = registries t' →
  registries (process_one t j) = registries (process_one t' j).
Proof.
  destruct j as [[name cid] trace]. unfold registries. intros [= Hd He Hs].
  destruct (process_one_registries t name cid trace) as (-> & -> & ->).
  destruct (process_one_registries t' name cid trace) as (-> & -> & ->).
  unfold loop. by rewrite Hd, He, Hs.
Qed.

Lemma process_one_swap t x y :
  registries (process_one (process_one t x) y) =
  registries (process_one (process_one t y) x).
Proof.
  destruct x as [[nx cx] tx], y as [[ny cy] ty]. unfold registries.
  repeat match goal with
         | |- context [process_one ?t (?n, ?c, ?tr)] =>
             destruct (process_one_registries t n c tr) as (-> & -> & ->)
         end.
  rewrite (loop_shift _ ty), (loop_shift _ tx). cbn [shift deps eps svcs].
  repeat match goal with
         | |- context [process_one ?t (?n, ?c, ?tr)] =>
             destruct (process_one_registries t n c tr) as (-> & -> & ->)
         end.
  rewrite (loop_shift t tx), (loop_shift t ty). cbn [shift deps eps svcs].
  f_equal; [f_equal; apply merge_sets_swap|set_solver].
Qed.

(** The registries after a batch do not depend on the order in which
    the journeys are processed. *)
Lemma batch_registries_perm js js' :
  js ≡ₚ js' → ∀ t t', registries t = registries t' →
  registries (foldl process_one t js) = registries (foldl process_one t' js').
Proof.
  induction 1 as [|x l1 l2 Hp IH|x y l|l1 l2 l3 _ IH1 _ IH2]; intros t t' Ht.
  - done.
  - cbn [foldl]. by apply IH, process_one_registries_eq.
  - cbn [foldl]. generalize (process_one_swap t y x).
    generalize (process_one (process_one t y) x). intros u Hu.
    assert (registries u = registries (process_one (process_one t' x) y)) as Hu'.
    { rewrite Hu. by do 2 apply process_one_registries_eq. }
    clear Hu Ht. revert u Hu'. generalize (process_one (process_one t' x) y).
    induction l as [|z l IHl]; intros u u' Hu; cbn [foldl]; [done|].
    by apply IHl, process_one_registries_eq.
  - etrans; [by apply IH1|by apply IH2].
Qed.

(** C7 (as amended).  The dependency edges recorded from a trace are
    exactly the pairs previous -> current of consecutive events whose
    services differ and whose previous service is truthy (neither null
    nor the empty string); over a batch the edges are those of the
    single traces, so none joins two traces; no self-edge x -> x is ever
    recorded; and the trace [(auth,/login),(auth,/login),(product,/search)]
    yields services {auth, product}, the single dependency auth -> product
    and endpoints {auth: [/login], product: [/search]}. *)
Theorem dependency_edges_exactly :
  (∀ cid trace src tgt,
     edge_in (service_dependencies (analyze_trace Tracer.init cid trace).1) src tgt ↔
     consecutive trace src tgt ∧ truthy src = true ∧ src ≠ tgt)
  ∧ (∀ js src tgt,
       edge_in (service_dependencies
                  (process_all_correlation_ids Tracer.init js)) src tgt ↔
       ∃ j, j ∈ js ∧ consecutive j.2 src tgt ∧ truthy src = true ∧ src ≠ tgt)
  ∧ (∀ js x,
       ¬ edge_in (service_dependencies
                    (process_all_correlation_ids Tracer.init js)) x x)
  ∧ (let t := (analyze_trace Tracer.init "cid"
                 [ev (Some "auth") (Some "/login");
                  ev (Some "auth") (Some "/login");
                  ev (Some "product") (Some "/search")]).1 in
     all_services t = {[Some "auth"; Some "product"]}
     ∧ service_dependencies t = {[Some "auth" := {[Some "product"]}]}
     ∧ service_endpoints t =
         {[Some "auth" := {[Some "/login"]};
           Some "product" := {[Some "/search"]}]}).
Proof.
  split; [|split; [|split]].
  - intros cid trace src tgt. rewrite recorded_edges. cbn [Tracer.init service_dependencies].
    split; [intros [H|H]; [by apply edge_in_empty in H|done]|by right].
  - intros js src tgt. rewrite batch_edges. cbn [Tracer.init service_dependencies].
    split; [intros [H|H]; [by apply edge_in_empty in H|done]|by right].
  - intros js x. rewrite batch_edges. cbn [Tracer.init service_dependencies].
    intros [H|(j & _ & _ & _ & Hne)]; [by apply edge_in_empty in H|done].
  - repeat split; vm_compute; reflexivity.
Qed.

(** C7, counterexample to the claim as stated: in the trace
    [(service ""), (service "b")] the two events are consecutive, their
    services differ and the previous service is not null, yet no edge
    "" -> b is recorded. *)
Lemma empty_previous_service_no_edge :
  let trace := [ev (Some "") None; ev (Some "b") None] in
  consecutive trace (Some "") (Some "b")
  ∧ Some "" ≠ (None : jstr)
  ∧ Some "" ≠ Some "b"
  ∧ ¬ edge_in (service_dependencies (analyze_trace Tracer.init "cid" trace).1)
        (Some "") (Some "b").
Proof.
  intros trace. split; [|split; [done|split; [done|]]].
  - by exists 0%nat, (ev (Some "") None), (ev (Some "b") None).
  - rewrite recorded_edges. intros [H|(_ & Ht & _)].
    + by apply edge_in_empty in H.
    + discriminate Ht.
Qed.

(** C10 (as amended).  When an event without a service comes right
    after an event on a service [s] that is not the empty string,
    analysing the trace records the null value as a dependency target
    under source [s]; an endpoint carried by that event, if it is not
    the empty string, is catalogued under the null key; and the analysis
    does not add the null value to the set of services. *)
Theorem null_service_recorded t cid trace i e1 e2 s :
  trace !! i = Some e1 → trace !! S i = Some e2 →
  e_service e1 = Some s → s ≠ "" → e_service e2 = None →
  let t' := (analyze_trace t cid trace).1 in
  edge_in (service_dependencies t') (Some s) None
  ∧ (∀ ep, e_endpoint e2 = Some ep → ep ≠ "" →
           edge_in (service_endpoints t') None (Some ep))
  ∧ (None ∈ all_services t' → None ∈ all_services t).
Proof.
  intros H1 H2 Hs Hne Hnone t'. subst t'. split; [|split].
  - rewrite recorded_edges. right. split; [|split; [|done]].
    + by exists i, e1, e2.
    + cbn. by apply negb_true_iff, String.eqb_neq.
  - intros ep Hep Hepne.
    destruct (analyze_trace_registries t cid trace) as (_ & -> & _).
    unfold loop. rewrite eps_foldl. right. split.
    + cbn. by apply negb_true_iff, String.eqb_neq.
    + exists e2. split; [by eapply list_elem_of_lookup_2|done].
  - destruct (analyze_trace_registries t cid trace) as (_ & _ & ->).
    unfold loop. intros [H|(Ht & _)]%svcs_foldl_inv; [done|discriminate Ht].
Qed.

Lemma null_service_recorded_witness :
  let trace := [ev (Some "auth") (Some "/login"); ev None (Some "/health")] in
  let t' := (analyze_trace Tracer.init "cid" trace).1 in
  edge_in (service_dependencies t') (Some "auth") None
  ∧ edge_in (service_endpoints t') None (Some "/health")
  ∧ None ∉ all_services t'.
Proof.
  intros trace t'.
  destruct (null_service_recorded Tracer.init "cid" trace 0
              (ev (Some "auth") (Some "/login")) (ev None (Some "/health")) "auth")
    as (Hd & He & Hs); [reflexivity | reflexivity | reflexivity | discriminate | reflexivity |].
  split; [exact Hd|split].
  - apply He; [reflexivity|discriminate].
  - intros Hin. apply Hs in Hin. cbn in Hin. by apply not_elem_of_empty in Hin.
Defined.

(** C10, counterexample to the claim as stated: after an event whose
    service is the empty string, an event without a service records no
    dependency under that source; and an event without a service whose
    endpoint is the empty string has nothing catalogued under the null
    key. *)
Lemma empty_source_or_endpoint_not_recorded :
  let trace1 := [ev (Some "") None; ev None None] in
  let trace2 := [ev (Some "auth") None; ev None (Some "")] in
  (trace1 !! 0%nat = Some (ev (Some "") None)
   ∧ trace1 !! 1%nat = Some (ev None None)
   ∧ ¬ edge_in (service_dependencies (analyze_trace Tracer.init "cid" trace1).1)
         (Some "") None)
  ∧ (trace2 !! 0%nat = Some (ev (Some "auth") None)
     ∧ trace2 !! 1%nat = Some (ev None (Some ""))
     ∧ e_endpoint (ev None (Some "")) = Some ""
     ∧ ¬ edge_in (service_endpoints (analyze_trace Tracer.init "cid" trace2).1)
           None (Some "")
     ∧ service_endpoints (analyze_trace Tracer.init "cid" trace2).1 !! None = None).
Proof.
  intros trace1 trace2. split; split_and!; try done.
  - rewrite recorded_edges. intros [H|(_ & Ht & _)].
    + by apply edge_in_empty in H.
    + discriminate Ht.
  - destruct (analyze_trace_registries Tracer.init "cid" trace2) as (_ & -> & _).
    unfold loop. rewrite eps_foldl. intros [H|(Ht & _)].
    + by apply edge_in_empty in H.
    + discriminate Ht.
Qed.

(** C3, evaluated at a batch whose single trace has an event without a
    service: the architecture that is built lists only [auth] in
    [services], while the null value is a dependency target and an
    endpoint key, so the closure property does not hold and no
    exception signals it. *)
Theorem closure_violated_by_missing_service :
  let trace := [ev (Some "auth") (Some "/login"); ev None (Some "/health")] in
  ∃ a,
    build_architecture_map "now"
      (process_all_correlation_ids Tracer.init [("journey", "cid", trace)]) = Ret a
    ∧ a_services a = Some [Some "auth"]
    ∧ a_service_dependencies a = Some [(Some "auth", [None])]
    ∧ (None, [Some "/health"]) ∈ default [] (a_service_endpoints a)
    ∧ ¬ closed a.
Proof.
  intros trace. eexists. split; [vm_compute; reflexivity|].
  cbn [a_services a_service_dependencies a_service_endpoints default].
  split; [done|split; [done|split]].
  - apply list_elem_of_In. vm_compute. tauto.
  - intros (_ & Hc & _).
    specialize (Hc (Some "auth", [None]) None).
    cbn in Hc. rewrite !list_elem_of_singleton in Hc.
    by specialize (Hc eq_refl eq_refl).
Qed.

End TracerFacts.

(** ** Discovery followed by fingerprinting *)

Module PipelineFacts.
Import Py Tracer Tracker Notions PyFacts HashFacts TracerFacts.

Lemma to_lists_is_dict d : is_dict (to_lists d).
Proof.
  unfold is_dict, to_lists. rewrite <- list_fmap_compose.
  apply NoDup_fst_map_to_list.
Qed.

Lemma build_architecture_map_fields now t a :
  build_architecture_map now t = Ret a →
  sorted (elements (all_services t)) = Ret (default [] (a_services a))
  ∧ a_service_dependencies a = Some (to_lists (service_dependencies t))
  ∧ a_service_endpoints a = Some (to_lists (service_endpoints t)).
Proof.
  unfold build_architecture_map, mbind, outcome_bind.
  destruct (sorted _); [|done]. by intros [= <-].
Qed.

Lemma build_registries now now' t t' :
  registries t = registries t' →
  (a ← build_architecture_map now t; calculate_architecture_hash a) =
  (a ← build_architecture_map now' t'; calculate_architecture_hash a).
Proof.
  unfold registries. intros [= Hd He Hs].
  unfold build_architecture_map, mbind, outcome_bind. rewrite Hd, He, Hs.
  by destruct (sorted _).
Qed.

Lemma elem_of_to_lists d kv :
  kv ∈ to_lists d ↔ ∃ k s, d !! k = Some s ∧ kv = (k, elements s).
Proof.
  unfold to_lists. rewrite list_elem_of_fmap. split.
  - intros ([k s] & -> & Hks%elem_of_map_to_list). by exists k, s.
  - intros (k & s & Hks & ->). exists (k, s). by rewrite elem_of_map_to_list.
Qed.

(** Building the architecture never raises after a batch: the services
    are all strings. *)
Lemma build_architecture_map_returns now js :
  ∃ a, build_architecture_map now (process_all_correlation_ids Tracer.init js) = Ret a.
Proof.
  unfold build_architecture_map, mbind, outcome_bind.
  destruct (sorted_no_None
              (elements (all_services (process_all_correlation_ids Tracer.init js))))
    as [l ->]; [|by eexists].
  rewrite elem_of_elements. apply batch_no_None. cbn. apply not_elem_of_empty.
Qed.

Lemma init_tidy :
  tidy (service_dependencies Tracer.init) (service_endpoints Tracer.init)
       (all_services Tracer.init).
Proof.
  split; [apply not_elem_of_empty|].
  split; intros k s Hk; cbn in Hk; by rewrite lookup_empty in Hk.
Qed.

(** When every event names a service, the architecture that is built
    satisfies the closure property. *)
Lemma closure_when_all_named now js a :
  all_named js →
  build_architecture_map now (process_all_correlation_ids Tracer.init js) = Ret a →
  closed a.
Proof.
  intros Hall Ha.
  destruct (batch_tidy js Tracer.init Hall init_tidy) as (_ & Hd & He).
  apply build_architecture_map_fields in Ha as (Hs & Hda & Hea).
  apply sorted_Ret_perm in Hs.
  unfold closed. rewrite Hda, Hea. cbn [default].
  assert (∀ x, x ∈ all_services (process_all_correlation_ids Tracer.init js) →
               x ∈ default [] (a_services a)) as Hin.
  { intros x Hx. rewrite Hs. by apply elem_of_elements. }
  split; [|split].
  - intros kv (k & s & Hk & ->)%elem_of_to_lists. apply Hin. by destruct (Hd k s Hk).
  - intros kv tgt (k & s & Hk & ->)%elem_of_to_lists Ht. apply Hin.
    destruct (Hd k s Hk) as [_ Hs']. apply Hs'. by apply elem_of_elements.
  - intros kv (k & s & Hk & ->)%elem_of_to_lists. apply Hin. by destruct (He k s Hk).
Qed.

(** When every event names a service, the fingerprint is computed: no
    step of the serialization raises. *)
Lemma fingerprint_returns now js :
  all_named js → ∃ h, fingerprint_of_discovery now js = Ret h.
Proof.
  intros Hall. unfold fingerprint_of_discovery.
  destruct (build_architecture_map_returns now js) as [a Ha].
  destruct (batch_tidy js Tracer.init Hall init_tidy) as (Hn & Hd & He).
  pose proof Ha as (Hs & Hda & Hea)%build_architecture_map_fields.
  unfold mbind at 1, outcome_bind at 1. rewrite Ha.
  unfold calculate_architecture_hash. rewrite Hda, Hea. cbn [from_option id].
  destruct (sorted_no_None (default [] (a_services a))) as [sv Hsv].
  { apply sorted_Ret_perm in Hs. rewrite Hs, elem_of_elements. done. }
  destruct (sorted_values_returns
              (to_lists (service_dependencies
                           (process_all_correlation_ids Tracer.init js))))
    as [cd Hcd].
  { intros kv (k & s & Hk & ->)%elem_of_to_lists. cbn.
    rewrite elem_of_elements. intros Hin. destruct (Hd k s Hk) as [_ Hs']. auto. }
  destruct (sorted_values_returns
              (to_lists (service_endpoints
                           (process_all_correlation_ids Tracer.init js))))
    as [ce Hce].
  { intros kv (k & s & Hk & ->)%elem_of_to_lists. cbn.
    rewrite elem_of_elements. by destruct (He k s Hk). }
  destruct (dumps_dict_returns cd) as [sd Hsd].
  { rewrite (sorted_values_keys _ _ Hcd).
    intros (kv & Hkv & (k & s & Hk & ->)%elem_of_to_lists)%list_elem_of_fmap.
    cbn in Hkv. subst k. by destruct (Hd None s Hk). }
  destruct (dumps_dict_returns ce) as [se Hse].
  { rewrite (sorted_values_keys _ _ Hce).
    intros (kv & Hkv & (k & s & Hk & ->)%elem_of_to_lists)%list_elem_of_fmap.
    cbn in Hkv. subst k. by destruct (He None s Hk). }
  unfold Json.dumps_arch, mbind, outcome_bind.
  rewrite Hsv; cbv beta iota. rewrite Hcd; cbv beta iota.
  rewrite Hce; cbv beta iota. rewrite Hsd; cbv beta iota.
  rewrite Hse; cbv beta iota. by eexists.
Qed.

(** C6.  The fingerprint of the architecture inferred from a batch of
    traces is the same for every reordering of the batch, whatever the
    time of the run; it is the same whatever order the sets and
    dictionaries of the result are enumerated in; and it is a computed
    value, not an exception, when every event names a service. *)
Theorem fingerprint_order_independent js js' now now' :
  js ≡ₚ js' →
  fingerprint_of_discovery now js = fingerprint_of_discovery now' js'
  ∧ (∀ a a',
       build_architecture_map now (process_all_correlation_ids Tracer.init js) = Ret a →
       same_up_to_order a a' →
       calculate_architecture_hash a' = fingerprint_of_discovery now' js')
  ∧ (all_named js → ∃ h, fingerprint_of_discovery now js = Ret h).
Proof.
  intros Hp.
  assert (fingerprint_of_discovery now js = fingerprint_of_discovery now' js') as Heq.
  { unfold fingerprint_of_discovery, process_all_correlation_ids.
    by apply build_registries, batch_registries_perm. }
  split; [done|]. split; [|apply fingerprint_returns].
  intros a a' Ha (Hs & Hd & He). rewrite <- Heq.
  unfold fingerprint_of_discovery, mbind, outcome_bind. rewrite Ha.
  apply build_architecture_map_fields in Ha as (_ & Hda & Hea).
  symmetry. apply hash_congruence; try done.
  - rewrite Hda. apply to_lists_is_dict.
  - rewrite Hea. apply to_lists_is_dict.
Qed.

Lemma fingerprint_order_independent_witness :
  let j1 := ("login", "c-1", [ev (Some "auth") (Some "/login");
                              ev (Some "product") (Some "/search")]) in
  let j2 := ("checkout", "c-2", [ev (Some "cart") (Some "/cart");
                                 ev (Some "payment") (Some "/pay")]) in
  fingerprint_of_discovery "2025-01-01T10:00:00" [j1; j2]
  = fingerprint_of_discovery "2025-01-02T11:30:00" [j2; j1].
Proof.
  intros j1 j2.
  apply (fingerprint_order_independent [j1; j2] [j2; j1]). apply perm_swap.
Defined.

End PipelineFacts.

(** ** History tracking *)

Module TrackerFacts.
Import Py Tracer Tracker Notions.

Lemma len_get_detect previous current key :
  key ∈ ["services_added"; "services_removed"; "dependencies_added";
         "dependencies_removed"; "endpoints_added"; "endpoints_removed"] →
  ∃ n, len_get (_detect_changes previous current) key = Ret n ∧ 0 <= n.
Proof.
  intros Hkey. unfold len_get, _detect_changes. cbv zeta.
  repeat (apply elem_of_cons in Hkey as [->|Hkey]);
    [..|by apply elem_of_nil in Hkey];
    simplify_map_eq; eexists; (split; [reflexivity|lia]).
Qed.

(** Scoring the result of [_detect_changes] never raises, and the score
    lies between 0 and 100. *)
Lemma drift_score_detect previous current :
  ∃ d, _calculate_drift_score (_detect_changes previous current) = Ret d
       ∧ 0 <= d <= 100.
Proof.
  unfold _calculate_drift_score.
  destruct (len_get_detect previous current "services_added") as (n1 & -> & ?);
    [set_solver|].
  destruct (len_get_detect previous current "services_removed") as (n2 & -> & ?);
    [set_solver|].
  destruct (len_get_detect previous current "dependencies_added") as (n3 & -> & ?);
    [set_solver|].
  destruct (len_get_detect previous current "dependencies_removed") as (n4 & -> & ?);
    [set_solver|].
  destruct (len_get_detect previous current "endpoints_added") as (n5 & -> & ?);
    [set_solver|].
  destruct (len_get_detect previous current "endpoints_removed") as (n6 & -> & ?);
    [set_solver|].
  cbn. eexists. split; [reflexivity|lia].
Qed.

(** C4 (as amended).  When the history file exists but [json.load]
    rejects its content, loading does not fail: the exception is caught,
    the line "No previous history found - starting fresh" is printed and
    the history is the empty list, the same history as for an absent
    file, which prints "Creating new drift history" instead. *)
Theorem corrupt_history_starts_fresh fs text :
  history_file fs = Some (Corrupt text) →
  _load_history fs = Ret ([], NoPreviousHistory)
  ∧ Tracker.init fs = Ret {| history := []; store := fs |}
  ∧ (∀ fs', history_file fs' = None →
            _load_history fs' = Ret ([], CreatingNew)
            ∧ Tracker.init fs' = Ret {| history := []; store := fs' |}).
Proof.
  intros Hf. unfold Tracker.init, _load_history. rewrite Hf. cbn.
  split; [done|split; [done|]]. by intros fs' ->.
Qed.

Lemma corrupt_history_starts_fresh_witness :
  _load_history {| history_file := Some (Corrupt "{not json");
                   snapshot_files := ∅;
                   discovered_architecture := None |}
  = Ret ([], NoPreviousHistory).
Proof.
  apply (corrupt_history_starts_fresh
           {| history_file := Some (Corrupt "{not json");
              snapshot_files := ∅; discovered_architecture := None |}
           "{not json").
  reflexivity.
Defined.

(** C4, counterexample to the claim as stated: a history file whose
    content [json.load] rejects raises no error when the history is
    loaded, and the tracker starts with the empty history, as it does
    when the file is absent. *)
Lemma corrupt_history_is_not_fatal :
  let corrupt := {| history_file := Some (Corrupt "{not json");
                    snapshot_files := ∅; discovered_architecture := None |} in
  let absent := {| history_file := None;
                   snapshot_files := ∅; discovered_architecture := None |} in
  json_load (Corrupt "{not json" : file (list snapshot)) = Raise JSONDecodeError
  ∧ (∀ e, _load_history corrupt ≠ Raise e)
  ∧ (∀ e, Tracker.init corrupt ≠ Raise e)
  ∧ (∃ t t', Tracker.init corrupt = Ret t ∧ Tracker.init absent = Ret t'
             ∧ history t = [] ∧ history t' = []).
Proof.
  intros corrupt absent. split; [done|split; [done|split; [done|]]].
  by eexists _, _.
Qed.

Lemma capture_snapshot_loaded history_dir now stamp t arch h :
  discovered_architecture (store t) = Some (Valid arch) →
  calculate_architecture_hash arch = Ret h →
  capture_snapshot history_dir now stamp t =
  if bool_decide (s_hash <$> last (history t) = Some h)
  then Ret (t, None)
  else
    cd ← match last (history t) with
         | Some prev =>
             let changes := _detect_changes (s_architecture prev) arch in
             d ← _calculate_drift_score changes;
             Ret (changes, d)
         | None => Ret ({["initial_snapshot" := CBool true]}, 0)
         end;
    let snapshot :=
      {| s_timestamp := now; s_hash := h; s_architecture := arch;
         s_metrics := a_metrics arch; s_changes := cd.1; s_drift_score := cd.2 |} in
    Ret ({| history := history t ++ [snapshot];
            store :=
              {| history_file := Some (Valid (history t ++ [snapshot]));
                 snapshot_files :=
                   <[path_join history_dir ("snapshot_" +:+ stamp +:+ ".json")
                     := snapshot]> (snapshot_files (store t));
                 discovered_architecture := discovered_architecture (store t) |} |},
         Some snapshot).
Proof.
  intros Hf Hh. unfold capture_snapshot. rewrite Hf.
  cbn [json_load]. unfold mbind at 1 2, outcome_bind at 1 2. by rewrite Hh.
Qed.

(** C8.  With the architecture document loaded and fingerprinted: when
    the fingerprint equals the hash of the last history entry, the
    capture changes nothing (history, history file, snapshot files) and
    returns no snapshot; otherwise exactly one entry is appended after
    the prior entries, which stay as they were, one snapshot file is
    written and the history file is rewritten with the new history. *)
Theorem capture_noop_or_append history_dir now stamp t arch h :
  discovered_architecture (store t) = Some (Valid arch) →
  calculate_architecture_hash arch = Ret h →
  (s_hash <$> last (history t) = Some h →
     capture_snapshot history_dir now stamp t = Ret (t, None))
  ∧ (s_hash <$> last (history t) ≠ Some h →
     ∃ snap,
       capture_snapshot history_dir now stamp t =
       Ret ({| history := history t ++ [snap];
               store :=
                 {| history_file := Some (Valid (history t ++ [snap]));
                    snapshot_files :=
                      <[path_join history_dir ("snapshot_" +:+ stamp +:+ ".json")
                        := snap]> (snapshot_files (store t));
                    discovered_architecture := discovered_architecture (store t) |} |},
            Some snap)
       ∧ s_hash snap = h ∧ s_architecture snap = arch
       ∧ (∀ i e, history t !! i = Some e → (history t ++ [snap]) !! i = Some e)
       ∧ length (history t ++ [snap]) = S (length (history t))).
Proof.
  intros Hf Hh. rewrite (capture_snapshot_loaded _ _ _ _ _ _ Hf Hh). split.
  - intros Heq. by rewrite bool_decide_eq_true_2.
  - intros Hne. rewrite bool_decide_eq_false_2 by done.
    destruct (last (history t)) as [prev|].
    + destruct (drift_score_detect (s_architecture prev) arch) as (d & Hd & _).
      unfold mbind, outcome_bind. rewrite Hd.
      eexists. split; [reflexivity|]. cbn [s_hash s_architecture].
      split; [done|split; [done|split]].
      * intros i e Hi. by apply lookup_app_l_Some.
      * rewrite length_app. cbn. lia.
    + eexists. split; [reflexivity|]. cbn [s_hash s_architecture].
      split; [done|split; [done|split]].
      * intros i e Hi. by apply lookup_app_l_Some.
      * rewrite length_app. cbn. lia.
Qed.

Lemma capture_noop_or_append_witness :
  let arch := doc "2025-01-02T09:00:00" (Some [Some "auth"]) None None in
  let entry :=
    {| s_timestamp := "2025-01-01T09:00:00";
       s_hash := "e49d88efa04d4b425f49d9b4ca53bf0a";
       s_architecture := doc "2025-01-01T08:59:00" (Some [Some "auth"]) None None;
       s_metrics := None;
       s_changes := {["initial_snapshot" := CBool true]};
       s_drift_score := 0 |} in
  let t := {| history := [entry];
              store := {| history_file := Some (Valid [entry]);
                          snapshot_files := ∅;
                          discovered_architecture := Some (Valid arch) |} |} in
  capture_snapshot "architecture_history" "2025-01-02T09:00:01" "20250102_090001" t
  = Ret (t, None).
Proof.
  intros arch entry t.
  apply (capture_noop_or_append "architecture_history" "2025-01-02T09:00:01"
           "20250102_090001" t arch "e49d88efa04d4b425f49d9b4ca53bf0a").
  - reflexivity.
  - vm_compute. reflexivity.
  - reflexivity.
Defined.

(** C9.  Capturing into an empty history appends one entry whose
    [changes] is the dictionary [{'initial_snapshot': True}], which is
    not the dictionary of six empty lists, and whose drift score is 0,
    the score of severity NO_CHANGE. *)
Theorem first_snapshot_is_initial history_dir now stamp t arch h :
  history t = [] →
  discovered_architecture (store t) = Some (Valid arch) →
  calculate_architecture_hash arch = Ret h →
  ∃ t' snap,
    capture_snapshot history_dir now stamp t = Ret (t', Some snap)
    ∧ history t' = [snap]
    ∧ s_changes snap = {["initial_snapshot" := CBool true]}
    ∧ s_changes snap ≠ empty_diff
    ∧ s_changes snap ≠ _detect_changes arch arch
    ∧ s_drift_score snap = 0
    ∧ Detector.severity_of (s_drift_score snap) = Detector.NO_CHANGE.
Proof.
  intros Hempty Hf Hh. rewrite (capture_snapshot_loaded _ _ _ _ _ _ Hf Hh).
  rewrite Hempty. cbn [last fmap option_fmap option_map].
  rewrite bool_decide_eq_false_2 by done.
  eexists _, _. split; [reflexivity|]. cbn.
  split; [done|split; [done|split; [|split; [|done]]]].
  - intros Heq. apply (f_equal (lookup "services_added")) in Heq.
    unfold empty_diff in Heq. by simplify_map_eq.
  - intros Heq. apply (f_equal (lookup "services_added")) in Heq.
    unfold _detect_changes in Heq. by simplify_map_eq.
Qed.

Lemma first_snapshot_is_initial_witness :
  let arch := doc "2025-01-02T09:00:00" (Some [Some "auth"]) None None in
  let t := {| history := [];
              store := {| history_file := None; snapshot_files := ∅;
                          discovered_architecture := Some (Valid arch) |} |} in
  ∃ t' snap,
    capture_snapshot "architecture_history" "2025-01-02T09:00:01"
      "20250102_090001" t = Ret (t', Some snap)
    ∧ history t' = [snap]
    ∧ s_changes snap = {["initial_snapshot" := CBool true]}
    ∧ s_drift_score snap = 0.
Proof.
  intros arch t.
  destruct (first_snapshot_is_initial "architecture_history" "2025-01-02T09:00:01"
              "20250102_090001" t arch "e49d88efa04d4b425f49d9b4ca53bf0a")
    as (t' & snap & H1 & H2 & H3 & _ & _ & H4 & _).
  - reflexivity.
  - reflexivity.
  - vm_compute. reflexivity.
  - exists t', snap. auto.
Defined.

End TrackerFacts.

(** ** Comparison of two architectures *)

Module ComparisonFacts.
Import Py Tracer Detector Comparison DetectorFacts.

Lemma severity_no_change d : severity_of d = NO_CHANGE ↔ d = 0.
Proof.
  unfold severity_of. destruct (Z.eqb_spec d 0); [done|].
  split; [|done]. by repeat case_match.
Qed.

Lemma len_zero {A} (l : list A) : len l = 0 ↔ l = [].
Proof. unfold len. destruct l; cbn; [done|]. split; [lia|done]. Qed.

(** The score is zero exactly when the six lists are empty. *)
Lemma drift_score_zero c :
  drift_score c = 0 ↔
  services_added c = [] ∧ services_removed c = []
  ∧ dependencies_added c = [] ∧ dependencies_removed c = []
  ∧ endpoints_added c = [] ∧ endpoints_removed c = [].
Proof.
  unfold drift_score, weighted_sum. rewrite <- !len_zero.
  pose proof (len_nonneg (services_added c)).
  pose proof (len_nonneg (services_removed c)).
  pose proof (len_nonneg (dependencies_added c)).
  pose proof (len_nonneg (dependencies_removed c)).
  pose proof (len_nonneg (endpoints_added c)).
  pose proof (len_nonneg (endpoints_removed c)).
  lia.
Qed.

Lemma differences_empty (X Y : gset jstr) :
  elements (Y ∖ X) = [] ∧ elements (X ∖ Y) = [] ↔ X = Y.
Proof.
  rewrite !elements_empty_iff. split.
  - intros [H1 H2]. apply set_eq. intros x. split; intros Hx.
    + destruct (decide (x ∈ Y)); [done|]. set_solver.
    + destruct (decide (x ∈ X)); [done|]. set_solver.
  - intros ->. set_solver.
Qed.

Lemma compare_score self baseline current :
  d_drift_score (compare_architectures self baseline current) =
  drift_score (d_changes (compare_architectures self baseline current))
  ∧ d_severity (compare_architectures self baseline current) =
    severity_of (d_drift_score (compare_architectures self baseline current)).
Proof. done. Qed.

(** The comparison reports NO_CHANGE, equivalently a score of 0,
    exactly when the two documents have the same set of services, the
    same set of [source -> target] keys and the same set of
    [service:endpoint] keys. *)
Lemma no_change_iff self baseline current :
  d_severity (compare_architectures self baseline current) = NO_CHANGE ↔
  list_to_set (default [] (a_services baseline)) =@{gset jstr}
    list_to_set (default [] (a_services current))
  ∧ _flatten_dependencies (default [] (a_service_dependencies baseline)) =
    _flatten_dependencies (default [] (a_service_dependencies current))
  ∧ _flatten_endpoints (default [] (a_service_endpoints baseline)) =
    _flatten_endpoints (default [] (a_service_endpoints current)).
Proof.
  destruct (compare_score self baseline current) as [Hs ->].
  rewrite severity_no_change, Hs, drift_score_zero.
  unfold compare_architectures; cbn [d_changes services_added services_removed
    dependencies_added dependencies_removed endpoints_added endpoints_removed].
  rewrite <- !differences_empty. tauto.
Qed.

(** X1.  Comparing two architecture documents gives severity
    NO_CHANGE, and then score 0 and six empty lists, exactly when they
    have the same set of services, of flattened dependencies and of
    flattened endpoints; in particular whenever a document is compared
    with itself, and whatever the detector held before. *)
Theorem compare_no_change_iff_same_sets self baseline current :
  (d_severity (compare_architectures self baseline current) = NO_CHANGE ↔
   list_to_set (default [] (a_services baseline)) =@{gset jstr}
     list_to_set (default [] (a_services current))
   ∧ _flatten_dependencies (default [] (a_service_dependencies baseline)) =
     _flatten_dependencies (default [] (a_service_dependencies current))
   ∧ _flatten_endpoints (default [] (a_service_endpoints baseline)) =
     _flatten_endpoints (default [] (a_service_endpoints current)))
  ∧ (d_severity (compare_architectures self baseline current) = NO_CHANGE ↔
     d_drift_score (compare_architectures self baseline current) = 0)
  ∧ (d_drift_score (compare_architectures self baseline current) = 0 ↔
     d_changes (compare_architectures self baseline current) = d_changes init)
  ∧ d_severity (compare_architectures self current current) = NO_CHANGE.
Proof.
  split; [apply no_change_iff|]. split; [|split].
  - destruct (compare_score self baseline current) as [_ ->].
    apply severity_no_change.
  - destruct (compare_score self baseline current) as [-> _].
    rewrite drift_score_zero.
    destruct (d_changes (compare_architectures self baseline current)); cbn.
    split; [by intros (-> & -> & -> & -> & -> & ->)|by intros [= -> -> -> -> -> ->]].
  - by apply no_change_iff.
Qed.

Lemma elem_of_flatten_dependencies d k :
  k ∈ _flatten_dependencies d ↔
  ∃ kv target, kv ∈ d ∧ target ∈ kv.2
               ∧ k = Some (py_str kv.1 +:+ " -> " +:+ py_str target).
Proof.
  unfold _flatten_dependencies. rewrite elem_of_list_to_set, list_elem_of_bind.
  setoid_rewrite list_elem_of_fmap. naive_solver.
Qed.

Lemma elem_of_flatten_endpoints d k :
  k ∈ _flatten_endpoints d ↔
  ∃ kv endpoint, kv ∈ d ∧ endpoint ∈ kv.2
                 ∧ k = Some (py_str kv.1 +:+ ":" +:+ py_str endpoint).
Proof.
  unfold _flatten_endpoints. rewrite elem_of_list_to_set, list_elem_of_bind.
  setoid_rewrite list_elem_of_fmap. naive_solver.
Qed.

(** X2.  What the comparison lists: a service is added when it is in
    the current list and not in the baseline list, a dependency key
    [source -> target] is added when the current mapping yields it and
    the baseline mapping does not, and likewise for removals; no list
    repeats an element, and nothing is both added and removed. *)
Theorem compare_lists_exact self baseline current :
  let c := d_changes (compare_architectures self baseline current) in
  (∀ v, v ∈ services_added c ↔
        v ∈ default [] (a_services current) ∧ v ∉ default [] (a_services baseline))
  ∧ (∀ v, v ∈ services_removed c ↔
          v ∈ default [] (a_services baseline) ∧ v ∉ default [] (a_services current))
  ∧ (∀ k, k ∈ dependencies_added c ↔
          k ∈ _flatten_dependencies (default [] (a_service_dependencies current))
          ∧ k ∉ _flatten_dependencies (default [] (a_service_dependencies baseline)))
  ∧ (∀ k, k ∈ dependencies_removed c ↔
          k ∈ _flatten_dependencies (default [] (a_service_dependencies baseline))
          ∧ k ∉ _flatten_dependencies (default [] (a_service_dependencies current)))
  ∧ (∀ k, k ∈ endpoints_added c ↔
          k ∈ _flatten_endpoints (default [] (a_service_endpoints current))
          ∧ k ∉ _flatten_endpoints (default [] (a_service_endpoints baseline)))
  ∧ (∀ k, k ∈ endpoints_removed c ↔
          k ∈ _flatten_endpoints (default [] (a_service_endpoints baseline))
          ∧ k ∉ _flatten_endpoints (default [] (a_service_endpoints current)))
  ∧ NoDup (services_added c) ∧ NoDup (services_removed c)
  ∧ NoDup (dependencies_added c) ∧ NoDup (dependencies_removed c)
  ∧ NoDup (endpoints_added c) ∧ NoDup (endpoints_removed c)
  ∧ (∀ v, v ∈ services_added c → v ∉ services_removed c)
  ∧ (∀ k, k ∈ dependencies_added c → k ∉ dependencies_removed c)
  ∧ (∀ k, k ∈ endpoints_added c → k ∉ endpoints_removed c).
Proof.
  intros c. subst c. unfold compare_architectures, _calculate_drift_score;
    cbn [d_changes services_added services_removed dependencies_added
         dependencies_removed endpoints_added endpoints_removed].
  assert (∀ (X Y : gset jstr) v, v ∈ elements (X ∖ Y) ↔ v ∈ X ∧ v ∉ Y) as mem.
  { intros X Y v. rewrite elem_of_elements. apply elem_of_difference. }
  split_and!;
    first [ apply NoDup_elements
          | intros v; rewrite !mem, ?elem_of_list_to_set; tauto ].
Qed.

Lemma append_assoc (a b c : string) : (a +:+ b) +:+ c = a +:+ (b +:+ c).
Proof.
  induction a as [|x a IH]; [done|].
  change (String x ((a +:+ b) +:+ c) = String x (a +:+ (b +:+ c))). by f_equal.
Qed.

Lemma length_append (a b : string) :
  String.length (a +:+ b) = (String.length a + String.length b)%nat.
Proof.
  induction a as [|x a IH]; [done|].
  change (S (String.length (a +:+ b)) = S (String.length a + String.length b)).
  by f_equal.
Qed.

(** X3.  The flattened key does not determine the pair it was built
    from.  For all strings [a], [b], [c], the dependency of
    [a -> b] on [c] and the dependency of [a] on [b -> c] have the same
    key, and so have a null target and a target named [None]; documents
    that differ only in this way are compared as NO_CHANGE. *)
Theorem flatten_key_collision (a b c : string) self baseline current :
  a_services baseline = a_services current →
  a_service_endpoints baseline = a_service_endpoints current →
  (a_service_dependencies baseline = Some [(Some (a +:+ " -> " +:+ b), [Some c])]
   ∧ a_service_dependencies current = Some [(Some a, [Some (b +:+ " -> " +:+ c)])])
  ∨ (a_service_dependencies baseline = Some [(Some a, [None])]
     ∧ a_service_dependencies current = Some [(Some a, [Some "None"])]) →
  a_service_dependencies baseline ≠ a_service_dependencies current
  ∧ d_severity (compare_architectures self baseline current) = NO_CHANGE
  ∧ d_changes (compare_architectures self baseline current) = d_changes init.
Proof.
  intros Hs He Hd.
  assert (d_severity (compare_architectures self baseline current) = NO_CHANGE) as Hn.
  { apply no_change_iff. rewrite Hs, He. split; [done|split; [|done]].
    destruct Hd as [[-> ->]|[-> ->]]; cbn [default from_option id];
      unfold _flatten_dependencies; cbn; [|done].
    by rewrite !append_assoc. }
  split; [|split; [done|]].
  - destruct Hd as [[-> ->]|[-> ->]]; [|done].
    intros [= H _]. apply (f_equal String.length) in H.
    rewrite !length_append in H. cbn in H. lia.
  - destruct (compare_score self baseline current) as [Hsc Hsv].
    rewrite Hsv in Hn. apply severity_no_change in Hn. rewrite Hsc in Hn.
    apply drift_score_zero in Hn.
    destruct (d_changes (compare_architectures self baseline current)); cbn in *.
    by destruct Hn as (-> & -> & -> & -> & -> & ->).
Qed.

Lemma flatten_key_collision_witness :
  Comparison.d_severity
    (compare_architectures init
       (Notions.doc "2025-01-01T10:00:00" (Some [Some "auth"])
          (Some [(Some "auth", [None])]) None)
       (Notions.doc "2025-01-02T10:00:00" (Some [Some "auth"])
          (Some [(Some "auth", [Some "None"])]) None))
  = NO_CHANGE.
Proof.
  eapply (flatten_key_collision "auth" "" "" init).
  - reflexivity.
  - reflexivity.
  - right. split; reflexivity.
Defined.



End ComparisonFacts.

(** ** History tracking, continued *)

Module TrackerMore.
Import Py Tracer Tracker Notions MoreNotions TrackerFacts.

(** The two ways in which [capture_snapshot] returns. *)
Lemma capture_snapshot_inv history_dir now stamp t t' r :
  capture_snapshot history_dir now stamp t = Ret (t', r) →
  (r = None ∧ t' = t)
  ∨ ∃ arch h snap,
      discovered_architecture (store t) = Some (Valid arch)
      ∧ calculate_architecture_hash arch = Ret h
      ∧ s_hash <$> last (history t) ≠ Some h
      ∧ r = Some snap
      ∧ s_hash snap = h ∧ s_architecture snap = arch
      ∧ 0 <= s_drift_score snap <= 100
      ∧ (history t = [] →
         s_changes snap = {["initial_snapshot" := CBool true]}
         ∧ s_drift_score snap = 0)
      ∧ t' = {| history := history t ++ [snap];
                store :=
                  {| history_file := Some (Valid (history t ++ [snap]));
                     snapshot_files :=
                       <[path_join history_dir ("snapshot_" +:+ stamp +:+ ".json")
                         := snap]> (snapshot_files (store t));
                     discovered_architecture := discovered_architecture (store t) |} |}.
Proof.
  destruct (discovered_architecture (store t)) as [[arch|text]|] eqn:Hf.
  - destruct (calculate_architecture_hash arch) as [h|e] eqn:Hh.
    + rewrite (capture_snapshot_loaded _ _ _ _ _ _ Hf Hh).
      case_bool_decide as Hlast; [intros [= <- <-]; by left|].
      destruct (last (history t)) as [prev|] eqn:El.
      * destruct (drift_score_detect (s_architecture prev) arch) as (d & Hd & Hb).
        unfold mbind, outcome_bind. rewrite Hd. intros [= <- <-]. right.
        eexists arch, h, _.
        split_and!; try done; try (by rewrite Hf); cbn; try lia.
        intros Hnil. by rewrite Hnil in El.
      * intros [= <- <-]. right.
        eexists arch, h, _. split_and!; try done; by rewrite Hf.
    + unfold capture_snapshot. rewrite Hf. cbn [json_load].
      unfold mbind at 1 2, outcome_bind at 1 2. by rewrite Hh.
  - unfold capture_snapshot. by rewrite Hf.
  - unfold capture_snapshot. rewrite Hf. intros [= <- <-]. by left.
Qed.

Lemma consistent_nil : consistent [].
Proof.
  split; [|split].
  - intros i a b H. by rewrite lookup_nil in H.
  - intros e H. by apply elem_of_nil in H.
  - intros e H. by rewrite lookup_nil in H.
Qed.

(** X6.  A capture keeps the history consistent and only appends: the
    old history is a prefix of the new one, at most one entry longer;
    neighbouring entries keep different hashes, every hash is the
    fingerprint of the stored architecture, every score lies in 0..100
    and the first entry is the initial snapshot. *)
Theorem capture_keeps_history_consistent history_dir now stamp t t' r :
  consistent (history t) →
  capture_snapshot history_dir now stamp t = Ret (t', r) →
  consistent (history t')
  ∧ history t `prefix_of` history t'
  ∧ (length (history t') <= S (length (history t)))%nat
  ∧ (r = None ↔ history t' = history t).
Proof.
  intros (Hadj & Hall & Hhead)
    [[-> ->]|(arch & h & snap & _ & Hh & Hlast & -> & Hsh & Hsa & Hsc & Hinit & ->)]
      %capture_snapshot_inv.
  { split; [done|]. split; [done|]. split; [lia|done]. }
  cbn [history]. split; [split; [|split]|split; [|split]].
  - intros i a b Ha Hb.
    destruct (decide (S i < length (history t))%nat) as [Hlt|Hge].
    + rewrite lookup_app_l in Ha by lia. rewrite lookup_app_l in Hb by lia. eauto.
    + assert (S i = length (history t)) as Hi.
      { apply lookup_lt_Some in Hb. rewrite length_app in Hb. cbn in Hb. lia. }
      rewrite lookup_app_l in Ha by lia.
      rewrite lookup_app_r, Hi, Nat.sub_diag in Hb by lia. cbn in Hb.
      injection Hb as <-. rewrite Hsh. intros Heq. apply Hlast.
      rewrite last_lookup, <- Hi. cbn. rewrite Ha. cbn. by f_equal.
  - intros e [He|He%list_elem_of_singleton]%elem_of_app; [by apply Hall|].
    subst e. by rewrite Hsa, Hsh.
  - intros e. destruct (history t) as [|e0 h0] eqn:Eh; cbn.
    + intros [= <-]. by apply Hinit.
    + intros [= <-]. by apply Hhead.
  - by apply prefix_app_r.
  - rewrite length_app. cbn. lia.
  - split; [done|]. intros Heq. apply (f_equal length) in Heq.
    rewrite length_app in Heq. cbn in Heq. lia.
Qed.

Lemma capture_keeps_history_consistent_witness :
  let arch := doc "2025-01-02T09:00:00" (Some [Some "auth"]) None None in
  let t := {| history := [];
              store := {| history_file := None; snapshot_files := ∅;
                          discovered_architecture := Some (Valid arch) |} |} in
  ∃ t' r,
    capture_snapshot "architecture_history" "2025-01-02T09:00:01"
      "20250102_090001" t = Ret (t', r)
    ∧ consistent (history t').
Proof.
  intros arch t. eexists _, _. split; [vm_compute; reflexivity|].
  eapply (capture_keeps_history_consistent "architecture_history"
            "2025-01-02T09:00:01" "20250102_090001" t).
  - apply consistent_nil.
  - vm_compute. reflexivity.
Defined.

(** X7.  Reading the discovered architecture: when the file is missing
    the capture returns nothing and changes nothing; when the file is
    not valid JSON the decoding error is not caught and propagates,
    whatever the history; and a fingerprint that cannot be computed
    propagates its TypeError. *)
Theorem capture_reading_errors history_dir now stamp t :
  (discovered_architecture (store t) = None →
   capture_snapshot history_dir now stamp t = Ret (t, None))
  ∧ (∀ text, discovered_architecture (store t) = Some (Corrupt text) →
             capture_snapshot history_dir now stamp t = Raise JSONDecodeError)
  ∧ (∀ arch e, discovered_architecture (store t) = Some (Valid arch) →
               calculate_architecture_hash arch = Raise e →
               capture_snapshot history_dir now stamp t = Raise TypeError).
Proof.
  unfold capture_snapshot. split; [|split].
  - by intros ->.
  - by intros text ->.
  - intros arch e -> He. cbn [json_load]. unfold mbind at 1 2, outcome_bind at 1 2.
    rewrite He. f_equal.
    unfold calculate_architecture_hash, Json.dumps_arch, Json.dumps_dict,
      mbind, outcome_bind in He.
    repeat match type of He with
           | context [match ?x with _ => _ end] =>
               let E := fresh "E" in destruct x eqn:E
           end; try done;
      injection He as <-;
      first [ by eapply PyFacts.sorted_raises
            | by eapply HashFacts.sorted_values_raises
            | idtac ].
    all: unfold Json.sort_items in *; repeat case_match; congruence.
Qed.

(** X17.  A history file that is not valid JSON is lost at the next
    capture: the tracker starts from the empty history, and a capture
    that succeeds rewrites the file with the single new entry, marked as
    the initial snapshot. *)
Theorem corrupt_history_is_overwritten history_dir now stamp fs text arch h :
  history_file fs = Some (Corrupt text) →
  discovered_architecture fs = Some (Valid arch) →
  calculate_architecture_hash arch = Ret h →
  ∃ t t' snap,
    Tracker.init fs = Ret t
    ∧ capture_snapshot history_dir now stamp t = Ret (t', Some snap)
    ∧ history_file (store t') = Some (Valid [snap])
    ∧ s_changes snap = {["initial_snapshot" := CBool true]}
    ∧ s_hash snap = h.
Proof.
  intros Hh Hf Hash.
  exists {| history := []; store := fs |}.
  eexists _, _. split.
  { unfold Tracker.init, _load_history. by rewrite Hh. }
  rewrite (capture_snapshot_loaded history_dir now stamp
             {| history := []; store := fs |} arch h Hf Hash).
  cbn [history last fmap option_fmap option_map].
  rewrite bool_decide_eq_false_2 by done.
  split; [reflexivity|]. by cbn.
Qed.

Lemma corrupt_history_is_overwritten_witness :
  let arch := doc "2025-01-02T09:00:00" (Some [Some "auth"]) None None in
  let fs := {| history_file := Some (Corrupt "[{");
               snapshot_files := ∅;
               discovered_architecture := Some (Valid arch) |} in
  ∃ t t' snap,
    Tracker.init fs = Ret t
    ∧ capture_snapshot "architecture_history" "2025-01-02T09:00:01"
        "20250102_090001" t = Ret (t', Some snap)
    ∧ history_file (store t') = Some (Valid [snap]).
Proof.
  intros arch fs.
  destruct (corrupt_history_is_overwritten "architecture_history"
              "2025-01-02T09:00:01" "20250102_090001" fs "[{" arch
              "e49d88efa04d4b425f49d9b4ca53bf0a")
    as (t & t' & snap & H1 & H2 & H3 & _).
  - reflexivity.
  - reflexivity.
  - vm_compute. reflexivity.
  - by exists t, t', snap.
Defined.

End TrackerMore.

(** ** The two scoring implementations *)

Module AgreementFacts.
Import Py Tracer.

(** X8.  The tracker and the detector compute the same differences and
    the same score: [_detect_changes] binds the six keys to the lists of
    [compare_architectures], and scoring them never raises and gives the
    detector's drift score. *)
Theorem tracker_agrees_with_detector self previous current :
  let d := Comparison.compare_architectures self previous current in
  let c := Comparison.d_changes d in
  Tracker._detect_changes previous current =
    <["endpoints_removed" := Tracker.CList (Detector.endpoints_removed c)]>
    (<["endpoints_added" := Tracker.CList (Detector.endpoints_added c)]>
    (<["dependencies_removed" := Tracker.CList (Detector.dependencies_removed c)]>
    (<["dependencies_added" := Tracker.CList (Detector.dependencies_added c)]>
    (<["services_removed" := Tracker.CList (Detector.services_removed c)]>
    (<["services_added" := Tracker.CList (Detector.services_added c)]> ∅)))))
  ∧ Tracker._calculate_drift_score (Tracker._detect_changes previous current)
    = Ret (Comparison.d_drift_score d).
Proof.
  intros d c. split; [reflexivity|].
  unfold Tracker._calculate_drift_score, Tracker.len_get, Tracker._detect_changes.
  cbv zeta. simplify_map_eq. cbn. f_equal.
Qed.

End AgreementFacts.

(** ** Trace analysis, continued *)

Module TracerMore.
Import Py Tracer Tracker Notions MoreNotions PyFacts HashFacts TracerFacts PipelineFacts.

(** The list of services of the journey during the loop. *)
Lemma sio_foldl trace : ∀ st,
  NoDup (services_in_order st) →
  NoDup (services_in_order (foldl step st trace))
  ∧ (∀ v, v ∈ services_in_order (foldl step st trace) ↔
          v ∈ services_in_order st
          ∨ (truthy v = true ∧ ∃ e, e ∈ trace ∧ e_service e = v))
  ∧ head (services_in_order (foldl step st trace)) =
    match head (services_in_order st) with
    | Some x => Some x
    | None => head (filter (fun v => truthy v = true) (e_service <$> trace))
    end.
Proof.
  induction trace as [|e trace IH]; intros st Hnd; cbn [foldl].
  - split; [done|]. split; [|by destruct (head _)].
    intros v. split; [by left|]. intros [?|(_ & e & He & _)]; [done|].
    by apply elem_of_nil in He.
  - assert (NoDup (services_in_order (step st e))) as Hnd'.
    { unfold step; cbn [services_in_order].
      destruct (truthy (e_service e)); cbn [andb]; [|done].
      case_bool_decide; [|done].
      apply NoDup_app. split; [done|]. split; [|apply NoDup_singleton].
      intros x Hx ->%list_elem_of_singleton. done. }
    destruct (IH _ Hnd') as (IH1 & IH2 & IH3). split; [done|]. split.
    + intros v. rewrite IH2. setoid_rewrite elem_of_cons.
      unfold step; cbn [services_in_order].
      destruct (truthy (e_service e)) eqn:Ht; cbn [andb].
      * case_bool_decide as Hin.
        -- rewrite elem_of_app, list_elem_of_singleton. naive_solver.
        -- split; [naive_solver|].
           intros [?|(Hv & e' & [->|?] & <-)]; [by left|by left|].
           right. eauto.
      * split; [naive_solver|].
        intros [?|(Hv & e' & [->|?] & <-)]; [by left|congruence|].
        right. eauto.
    + rewrite IH3. unfold step; cbn [services_in_order].
      cbn [fmap list_fmap]. rewrite filter_cons.
      destruct (truthy (e_service e)) eqn:Ht; cbn [andb].
      * rewrite decide_True by done. case_bool_decide as Hin.
        -- destruct (services_in_order st) as [|x l]; [done|done].
        -- destruct (services_in_order st) as [|x l]; [|done].
           by apply elem_of_nil in Hin.
      * rewrite decide_False by congruence. done.
Qed.

Lemma endpoints_used_foldl trace : ∀ st,
  endpoints_used (foldl step st trace) =
  endpoints_used st
  ++ (use_of <$> filter (fun e => truthy (e_endpoint e) = true) trace).
Proof.
  induction trace as [|e trace IH]; intros st; cbn [foldl].
  - by rewrite app_nil_r.
  - rewrite IH, filter_cons. unfold step; cbn [endpoints_used].
    destruct (truthy (e_endpoint e)) eqn:Ht.
    + rewrite decide_True by done. by rewrite <- app_assoc.
    + by rewrite decide_False by congruence.
Qed.

(** X9.  The journey data of a non-empty trace: its services are the
    named services of the trace, each once; the count is their number;
    the start service is the first named service of the trace; and the
    endpoint calls are the events that carry an endpoint, in order and
    with repetitions. *)
Theorem journey_data_exact t cid e trace :
  ∃ jd,
    (analyze_trace t cid (e :: trace)).2 = Some jd
    ∧ correlation_id jd = cid
    ∧ NoDup (j_services jd)
    ∧ (∀ v, v ∈ j_services jd ↔
            truthy v = true ∧ ∃ e', e' ∈ e :: trace ∧ e_service e' = v)
    ∧ service_count jd = Z.of_nat (length (j_services jd))
    ∧ start_service jd =
      default None (head (filter (fun v => truthy v = true)
                            (e_service <$> e :: trace)))
    ∧ (j_services jd = [] ↔ ¬ named (e :: trace))
    ∧ j_endpoints jd =
      use_of <$> filter (fun e' => truthy (e_endpoint e') = true) (e :: trace).
Proof.
  eexists. split; [reflexivity|]. cbn [correlation_id j_services service_count
    start_service j_endpoints].
  destruct (sio_foldl (e :: trace)
              {| services_in_order := []; endpoints_used := [];
                 previous_service := None;
                 deps := service_dependencies t; eps := service_endpoints t;
                 svcs := all_services t |} (NoDup_nil_2)) as (H1 & H2 & H3).
  fold (loop t (e :: trace)) in H1, H2, H3. cbn [services_in_order head] in H2, H3.
  split_and!; try done.
  - intros v. rewrite H2. split; [intros [H|H]; [by apply elem_of_nil in H|done]|by right].
  - by rewrite H3.
  - split.
    + intros Hnil (e' & He' & Ht).
      assert (e_service e' ∈ services_in_order (loop t (e :: trace))) as Hin.
      { apply H2. right. eauto. }
      rewrite Hnil in Hin. by apply elem_of_nil in Hin.
    + intros Hn. destruct (services_in_order (loop t (e :: trace))) as [|v l] eqn:E;
        [done|]. destruct Hn.
      assert (v ∈ v :: l) as Hv by left. apply H2 in Hv as [Hv|(Ht & e' & He' & <-)].
      * by apply elem_of_nil in Hv.
      * by exists e'.
  - unfold loop. by rewrite endpoints_used_foldl.
Qed.

Lemma process_one_journeys t name cid trace :
  (fun jd => (journey_name jd, correlation_id jd))
    <$> user_journeys (process_one t (name, cid, trace)) =
  ((fun jd => (journey_name jd, correlation_id jd)) <$> user_journeys t)
  ++ (if decide (named trace) then [(Some name, cid)] else []).
Proof.
  destruct trace as [|e trace].
  - cbn [process_one]. rewrite decide_False, app_nil_r; [done|].
    intros (e & He & _). by apply elem_of_nil in He.
  - destruct (journey_data_exact t cid e trace)
      as (jd & Hjd & Hcid & _ & _ & _ & _ & Hnil & _).
    unfold process_one. destruct (analyze_trace t cid (e :: trace)) as [t' o] eqn:Ea.
    cbn in Hjd. subst o.
    assert (user_journeys t' = user_journeys t) as Hu.
    { cbn [analyze_trace] in Ea. by injection Ea as <- _. }
    destruct (j_services jd) as [|v l] eqn:Es.
    + rewrite decide_False, app_nil_r by by apply Hnil. by rewrite Hu.
    + rewrite decide_True.
      * cbn [user_journeys]. rewrite fmap_app, Hu. cbn. by rewrite Hcid.
      * destruct (decide (named (e :: trace))) as [|Hn]; [done|].
        by apply Hnil in Hn.
Qed.

(** X10.  Which journeys are recorded: after a batch, the recorded
    journeys are, in order, those of the batch whose trace names at
    least one service, each with its name and correlation id; a journey
    whose fetch gave no events leaves the tracer as it was. *)
Theorem recorded_journeys js :
  (fun jd => (journey_name jd, correlation_id jd))
    <$> user_journeys (process_all_correlation_ids Tracer.init js)
  = (fun j => (Some j.1.1, j.1.2)) <$> filter (fun j => named j.2) js
  ∧ length (user_journeys (process_all_correlation_ids Tracer.init js))
    = length (filter (fun j => named j.2) js)
  ∧ (∀ t name cid, process_one t (name, cid, []) = t).
Proof.
  assert (∀ t,
    (fun jd => (journey_name jd, correlation_id jd))
      <$> user_journeys (process_all_correlation_ids t js)
    = ((fun jd => (journey_name jd, correlation_id jd)) <$> user_journeys t)
      ++ ((fun j => (Some j.1.1, j.1.2)) <$> filter (fun j => named j.2) js)) as Hgen.
  { unfold process_all_correlation_ids.
    induction js as [|[[name cid] trace] js IH]; intros t; cbn [foldl].
    - by rewrite app_nil_r.
    - rewrite IH, process_one_journeys, filter_cons. cbn [snd fst].
      destruct (decide (named trace)); by rewrite <- app_assoc. }
  pose proof (Hgen Tracer.init) as H0. cbn in H0.
  split; [done|]. split; [|done].
  apply (f_equal length) in H0. by rewrite !length_fmap in H0.
Qed.

Lemma total_size_pairs d : total_size d = pairs (to_lists d).
Proof.
  unfold total_size, pairs, to_lists.
  induction (map_to_list d) as [|[k v] l IH]; [done|].
  cbn. rewrite length_app, Nat2Z.inj_add. cbn in IH. rewrite IH. reflexivity.
Qed.

(** X11.  The architecture built after a batch is always returned, and
    its parts agree: [services] is a strictly sorted list of strings
    (no repetition), and the four metrics are the length of that list,
    the numbers of source-target and service-endpoint pairs of the two
    mappings, and the number of recorded journeys. *)
Theorem built_architecture_consistent now js :
  ∃ a ss m,
    build_architecture_map now (process_all_correlation_ids Tracer.init js) = Ret a
    ∧ a_services a = Some (Some <$> ss)
    ∧ Sorted str_le ss ∧ NoDup ss
    ∧ a_metrics a = Some m
    ∧ total_services m = Z.of_nat (length ss)
    ∧ total_dependencies m = pairs (default [] (a_service_dependencies a))
    ∧ total_endpoints m = pairs (default [] (a_service_endpoints a))
    ∧ total_journeys m = Z.of_nat (length (a_user_journeys a)).
Proof.
  set (t := process_all_correlation_ids Tracer.init js).
  assert (None ∉ elements (all_services t)) as Hn.
  { rewrite elem_of_elements. apply batch_no_None. cbn. apply not_elem_of_empty. }
  destruct (all_str_no_None _ Hn) as [ss0 Hss0].
  pose proof (all_str_Some _ _ Hss0) as Hel.
  assert (sorted (elements (all_services t)) = Ret (Some <$> sorted_str ss0)) as Hs.
  { unfold sorted. rewrite Hss0.
    destruct (elements (all_services t)) as [|x [|y l]] eqn:E; [| |done].
    - destruct ss0; [done|discriminate Hel].
    - destruct ss0 as [|s0 [|s1 ss1]]; try discriminate Hel.
      injection Hel as ->. done. }
  eexists _, (sorted_str ss0), _. unfold build_architecture_map, mbind, outcome_bind.
  fold t. rewrite Hs. split; [reflexivity|].
  cbn [a_services a_metrics a_service_dependencies a_service_endpoints
       a_user_journeys total_services total_dependencies total_endpoints
       total_journeys default from_option id].
  assert (sorted_str ss0 ≡ₚ ss0) as Hp by apply merge_sort_Permutation.
  assert (NoDup ss0) as Hnd.
  { apply (NoDup_fmap_1 Some). rewrite <- Hel. apply NoDup_elements. }
  split_and!; try done.
  - apply Sorted_merge_sort. apply _.
  - by rewrite Hp.
  - rewrite Hp. f_equal.
    change (size (all_services t)) with (length (elements (all_services t))).
    by rewrite Hel, length_fmap.
  - apply total_size_pairs.
  - apply total_size_pairs.
Qed.

Lemma edge_in_merge_sets a b src tgt :
  edge_in (merge_sets a b) src tgt ↔ edge_in a src tgt ∨ edge_in b src tgt.
Proof.
  unfold edge_in. setoid_rewrite merge_sets_lookup. split.
  - intros (s & Hs & Hin). destruct (a !! src) as [x|], (b !! src) as [y|];
      cbn in Hs; simplify_eq; eauto.
    apply elem_of_union in Hin as [?|?]; eauto.
  - intros [(s & Hs & Hin)|(s & Hs & Hin)]; rewrite Hs.
    + destruct (b !! src); cbn; eexists; (split; [done|]); set_solver.
    + destruct (a !! src); cbn; eexists; (split; [done|]); set_solver.
Qed.

Lemma process_one_grows t j :
  (∀ src tgt, edge_in (service_dependencies t) src tgt →
              edge_in (service_dependencies (process_one t j)) src tgt)
  ∧ (∀ k ep, edge_in (service_endpoints t) k ep →
             edge_in (service_endpoints (process_one t j)) k ep)
  ∧ all_services t ⊆ all_services (process_one t j)
  ∧ user_journeys t `prefix_of` user_journeys (process_one t j).
Proof.
  destruct j as [[name cid] trace].
  destruct (process_one_registries t name cid trace) as (-> & -> & ->).
  rewrite loop_shift. cbn [shift deps eps svcs]. split_and!.
  - intros src tgt H. apply edge_in_merge_sets. by left.
  - intros k ep H. apply edge_in_merge_sets. by left.
  - set_solver.
  - destruct trace as [|e trace]; [done|]. unfold process_one.
    cbn [analyze_trace]. destruct (services_in_order _); [done|].
    cbn [user_journeys]. by apply prefix_app_r.
Qed.

(** X12.  Discovery only accumulates: processing a batch never removes
    a service, a dependency or an endpoint that the tracer already
    held, and never removes or reorders a recorded journey. *)
Theorem discovery_only_grows js t :
  let t' := process_all_correlation_ids t js in
  (∀ src tgt, edge_in (service_dependencies t) src tgt →
              edge_in (service_dependencies t') src tgt)
  ∧ (∀ k ep, edge_in (service_endpoints t) k ep →
             edge_in (service_endpoints t') k ep)
  ∧ all_services t ⊆ all_services t'
  ∧ user_journeys t `prefix_of` user_journeys t'.
Proof.
  unfold process_all_correlation_ids. revert t.
  induction js as [|j js IH]; intros t; cbn [foldl]; [done|].
  destruct (IH (process_one t j)) as (H1 & H2 & H3 & H4).
  destruct (process_one_grows t j) as (G1 & G2 & G3 & G4).
  split_and!; [auto|auto|set_solver|by etrans].
Qed.

Lemma merge_sets_idemp a c : merge_sets (merge_sets a c) c = merge_sets a c.
Proof.
  apply map_eq. intros k. rewrite !merge_sets_lookup.
  destruct (a !! k), (c !! k); cbn; f_equal; set_solver.
Qed.

Lemma process_one_twice t x y :
  x.2 = y.2 →
  registries (process_one (process_one t x) y) = registries (process_one t x).
Proof.
  destruct x as [[nx cx] tx], y as [[ny cy] ty]. cbn [snd]. intros <-.
  unfold registries.
  destruct (process_one_registries (process_one t (nx, cx, tx)) ny cy tx)
    as (-> & -> & ->).
  rewrite (loop_shift _ tx). cbn [shift deps eps svcs].
  destruct (process_one_registries t nx cx tx) as (-> & -> & ->).
  rewrite (loop_shift t tx). cbn [shift deps eps svcs].
  rewrite !merge_sets_idemp. apply (f_equal2 pair); [done|]. set_solver.
Qed.

(** X13.  Frequency does not enter the fingerprint: adding to a batch a
    journey whose trace already occurs in it, under any name and
    correlation id, leaves the fingerprint of the discovery unchanged. *)
Theorem repeated_trace_same_fingerprint now js j j' :
  j' ∈ js → j'.2 = j.2 →
  fingerprint_of_discovery now (js ++ [j]) = fingerprint_of_discovery now js.
Proof.
  intros Hin Heq. unfold fingerprint_of_discovery, process_all_correlation_ids.
  apply build_registries.
  apply elem_of_Permutation in Hin as [js0 Hp].
  assert (js ≡ₚ js0 ++ [j']) as Hp' by (by rewrite Hp, Permutation_cons_append).
  rewrite (batch_registries_perm (js ++ [j]) ((js0 ++ [j']) ++ [j]) (Permutation_app_tail _ Hp') Tracer.init Tracer.init eq_refl).
  rewrite (batch_registries_perm js (js0 ++ [j']) Hp' Tracer.init Tracer.init eq_refl).
  rewrite !foldl_app. cbn [foldl]. by apply process_one_twice.
Qed.

Lemma repeated_trace_same_fingerprint_witness :
  let j1 := ("login", "c-1", [ev (Some "auth") (Some "/login");
                              ev (Some "product") (Some "/search")]) in
  let j2 := ("login again", "c-7", [ev (Some "auth") (Some "/login");
                                    ev (Some "product") (Some "/search")]) in
  fingerprint_of_discovery "2025-01-01T10:00:00" ([j1] ++ [j2])
  = fingerprint_of_discovery "2025-01-01T10:00:00" [j1].
Proof.
  intros j1 j2.
  apply (repeated_trace_same_fingerprint "2025-01-01T10:00:00" [j1] j2 j1).
  - by left.
  - reflexivity.
Defined.

End TracerMore.

(** ** The trace endpoint of the collector *)

Module SplunkFacts.
Import Py Splunk MoreNotions PyFacts.

Lemma visit_None cid l : visit cid l = None ↔ not_an_object l.
Proof.
  unfold visit, not_an_object. destruct (l_event l) as [f|text [[f|]|]|]; split;
    try done; try (intros [?|[? ?]]; done); eauto.
Qed.

Lemma visit_Some cid l items :
  visit cid l = Some items → items = matches cid [l].
Proof.
  unfold visit, matches, object_of. cbn.
  destruct (l_event l) as [f|text [[f|]|]|]; try done; intros [= <-]; cbn;
    repeat case_bool_decide; done.
Qed.

Lemma matches_cons cid l logs : matches cid (l :: logs) = matches cid [l] ++ matches cid logs.
Proof. unfold matches. cbn. by destruct (_ ≫= _). Qed.

(** The loop fails exactly on a log that is not an object, and
    otherwise collects the matching items. *)
Lemma collect_spec cid logs :
  (collect cid logs = None ↔ ∃ l, l ∈ logs ∧ not_an_object l)
  ∧ (∀ items, collect cid logs = Some items → items = matches cid logs).
Proof.
  induction logs as [|l logs [IH1 IH2]]; cbn [collect].
  - split; [|by intros items [= <-]]. split; [done|].
    intros (l & Hl & _). by apply elem_of_nil in Hl.
  - destruct (visit cid l) as [found|] eqn:Ev.
    + destruct (collect cid logs) as [rest|] eqn:Ec.
      * split.
        -- split; [done|]. intros (l' & [->|Hl']%elem_of_cons & Hbad).
           ++ apply (visit_None cid) in Hbad. congruence.
           ++ assert (Some rest = None) as Hn by (apply IH1; eauto). done.
        -- intros items [= <-]. rewrite matches_cons.
           by rewrite (visit_Some _ _ _ Ev), (IH2 rest eq_refl).
      * split; [|done]. split; [|done]. intros _.
        destruct IH1 as [IH1 _]. destruct (IH1 eq_refl) as (l' & Hl' & Hbad).
        exists l'. split; [by right|done].
    + split; [|done]. split; [|done]. intros _. exists l. split; [by left|].
      by apply (visit_None cid).
Qed.

Lemma insert_perm x l : insert_by_timestamp x l ≡ₚ x :: l.
Proof.
  induction l as [|y l IH]; cbn; [done|]. case_bool_decide; [done|].
  by rewrite IH, perm_swap.
Qed.

Lemma sort_perm l : sort_by_timestamp l ≡ₚ l.
Proof.
  unfold sort_by_timestamp. induction l as [|x l IH]; cbn; [done|].
  by rewrite insert_perm, IH.
Qed.

Lemma insert_sorted x l :
  Sorted ts_le l → Sorted ts_le (insert_by_timestamp x l).
Proof.
  induction 1 as [|y l Hs IH Hhd]; cbn.
  - by repeat constructor.
  - case_bool_decide as Hle; [by repeat constructor|].
    constructor; [done|].
    assert (ts_le y x) as Hyx.
    { destruct (str_le_total (i_timestamp x) (i_timestamp y)); done. }
    destruct Hhd as [|z l' Hyz]; cbn; [by constructor|].
    case_bool_decide; by constructor.
Qed.

Lemma sort_sorted l : Sorted ts_le (sort_by_timestamp l).
Proof.
  unfold sort_by_timestamp. induction l as [|x l IH]; cbn; [constructor|].
  by apply insert_sorted.
Qed.

Lemma sort_of_sorted l : Sorted ts_le l → sort_by_timestamp l = l.
Proof.
  unfold sort_by_timestamp. induction 1 as [|x l Hs IH Hhd]; cbn; [done|].
  rewrite IH. destruct Hhd as [|y l' Hxy]; cbn; [done|].
  by rewrite bool_decide_eq_true_2.
Qed.

Lemma insert_filter ts x l :
  filter (fun i => i_timestamp i = ts) (insert_by_timestamp x l) =
  filter (fun i => i_timestamp i = ts) (x :: l).
Proof.
  induction l as [|y l IH]; cbn [insert_by_timestamp]; [done|].
  case_bool_decide as Hle; [done|].
  rewrite filter_cons, IH, !filter_cons.
  destruct (decide (i_timestamp y = ts)) as [Hy|]; [|done].
  destruct (decide (i_timestamp x = ts)) as [Hx|]; [|done].
  destruct Hle. rewrite Hx, Hy. by destruct (str_le_total ts ts).
Qed.

Lemma sort_filter ts l :
  filter (fun i => i_timestamp i = ts) (sort_by_timestamp l) =
  filter (fun i => i_timestamp i = ts) l.
Proof.
  unfold sort_by_timestamp. induction l as [|x l IH]; cbn [foldr]; [done|].
  by rewrite insert_filter, !filter_cons, IH.
Qed.

(** X14.  A successful trace request returns the items of the stored
    objects with the requested correlation id, ordered by timestamp;
    items with the same timestamp keep their order of arrival, and when
    the store is already in timestamp order the trace is in order of
    arrival. *)
Theorem trace_is_sorted_matches logs cid r :
  trace_request logs cid = Ok200 r →
  r_correlation_id r = cid
  ∧ r_trace r = sort_by_timestamp (matches cid logs)
  ∧ r_trace r ≡ₚ matches cid logs
  ∧ Sorted ts_le (r_trace r)
  ∧ (∀ ts, filter (fun i => i_timestamp i = ts) (r_trace r) =
           filter (fun i => i_timestamp i = ts) (matches cid logs))
  ∧ (Sorted ts_le (matches cid logs) → r_trace r = matches cid logs)
  ∧ (∀ v, v ∈ r_services_involved r ↔
          truthy v = true ∧ ∃ i, i ∈ matches cid logs ∧ i_service i = v).
Proof.
  unfold trace_request. destruct (collect cid logs) as [items|] eqn:Ec; [|done].
  apply (proj2 (collect_spec cid logs)) in Ec as ->. intros [= <-].
  cbn [r_correlation_id r_trace r_services_involved]. split_and!.
  - done.
  - done.
  - apply sort_perm.
  - apply sort_sorted.
  - intros ts. apply sort_filter.
  - apply sort_of_sorted.
  - intros v. rewrite elem_of_list_to_set, list_elem_of_filter, list_elem_of_fmap.
    setoid_rewrite sort_perm. naive_solver.
Qed.

Lemma trace_is_sorted_matches_witness :
  let logs := [sample_log "2025-01-01T10:00:02" "c-1" "product" "/search";
               sample_log "2025-01-01T10:00:01" "c-1" "auth" "/login";
               sample_log "2025-01-01T10:00:03" "c-2" "auth" "/login"] in
  ∃ r, trace_request logs "c-1" = Ok200 r
       ∧ i_service <$> r_trace r = [Some "auth"; Some "product"]
       ∧ Sorted ts_le (r_trace r).
Proof.
  intros logs. eexists. split; [vm_compute; reflexivity|].
  split; [vm_compute; reflexivity|].
  eapply (trace_is_sorted_matches logs "c-1"). vm_compute. reflexivity.
Defined.



(** X16.  What the tracer analyses for a correlation id, when no stored
    event is malformed: if the request built from the id reaches
    [trace_request] with the id [received], the trace is made of the
    stored objects whose correlation id is [received], in timestamp
    order, each read as its service, endpoint and timestamp, and it is
    empty when there is none, in which case the journey changes nothing;
    if the request raises or is answered by anything else than
    [trace_request], the trace is empty. *)
Theorem fetched_trace route logs cid :
  (∀ l, l ∈ logs → ¬ not_an_object l) →
  (route cid = None → fetch_trace_from_splunk route logs cid = [])
  ∧ (∀ received, route cid = Some received →
       fetch_trace_from_splunk route logs cid =
         to_entry <$> sort_by_timestamp (matches received logs)
       ∧ length (fetch_trace_from_splunk route logs cid) =
         length (matches received logs)
       ∧ (matches received logs = [] →
          ∀ t name,
            Tracer.process_one t (name, cid, fetch_trace_from_splunk route logs cid) = t)).
Proof.
  intros Hgood. unfold fetch_trace_from_splunk, trace_request.
  split; [by intros ->|]. intros received ->.
  destruct (collect received logs) as [items|] eqn:Ec.
  - apply (proj2 (collect_spec received logs)) in Ec as ->.
    cbn [r_trace]. split_and!; [done| |].
    + by rewrite length_fmap, sort_perm.
    + by intros ->.
  - apply (proj1 (collect_spec received logs)) in Ec as (l & Hl & Hbad).
    by destruct (Hgood l Hl).
Qed.

Lemma fetched_trace_witness :
  let logs := [sample_log "2025-01-01T10:00:02" "c-1" "product" "/search";
               sample_log "2025-01-01T10:00:01" "c-1" "auth" "/login"] in
  Tracer.e_service <$> fetch_trace_from_splunk Some logs "c-1"
  = [Some "auth"; Some "product"].
Proof.
  intros logs.
  destruct (fetched_trace Some logs "c-1") as (_ & H).
  - intros l Hl [Hbad|[text Hbad]];
      repeat (apply elem_of_cons in Hl as [->|Hl]); try discriminate Hbad;
      by apply elem_of_nil in Hl.
  - destruct (H "c-1" eq_refl) as (-> & _). vm_compute. reflexivity.
Defined.

End SplunkFacts.

(** ** The fingerprint as a value *)

Module HashMore.
Import Py Tracer Tracker Notions PyFacts HashFacts.

Lemma length_le_bytes n x : length (Hashlib.le_bytes n x) = n.
Proof. unfold Hashlib.le_bytes. by rewrite length_fmap, length_seq. Qed.

Lemma length_hex bs : String.length (Hashlib.hex bs) = (2 * length bs)%nat.
Proof. induction bs as [|b bs IH]; cbn; [done|]. rewrite IH. lia. Qed.

Lemma length_md5 s : String.length (Hashlib.md5_hexdigest s) = 32%nat.
Proof.
  unfold Hashlib.md5_hexdigest, Hashlib.digest. rewrite length_hex.
  destruct (foldl Hashlib.compress _ _) as [[[a b] c] d].
  by rewrite !length_app, !length_le_bytes.
Qed.

Lemma dumps_dict_raises d e : Json.dumps_dict d = Raise e → e = TypeError.
Proof.
  unfold Json.dumps_dict, Json.sort_items, mbind, outcome_bind.
  repeat case_match; congruence.
Qed.

Lemma dumps_arch_raises sv d e x : Json.dumps_arch sv d e = Raise x → x = TypeError.
Proof.
  unfold Json.dumps_arch, mbind, outcome_bind.
  destruct (Json.dumps_dict d) eqn:Ed; [|intros [= <-]; by eapply dumps_dict_raises].
  destruct (Json.dumps_dict e) eqn:Ee; [done|].
  intros [= <-]. by eapply dumps_dict_raises.
Qed.

(** X18.  The fingerprint of a document is either a string of 32
    characters or the exception TypeError, nothing else; and it is a
    string whenever no null occurs among the services, among the keys
    of the two mappings and among their values. *)
Theorem fingerprint_value_or_type_error a :
  (∀ h, calculate_architecture_hash a = Ret h → String.length h = 32%nat)
  ∧ (∀ e, calculate_architecture_hash a = Raise e → e = TypeError)
  ∧ (None ∉ default [] (a_services a) →
     (∀ kv, kv ∈ default [] (a_service_dependencies a) ++
                 default [] (a_service_endpoints a) →
            kv.1 ≠ None ∧ None ∉ kv.2) →
     ∃ h, calculate_architecture_hash a = Ret h).
Proof.
  unfold calculate_architecture_hash, mbind, outcome_bind.
  split_and!.
  - intros h. repeat case_match; try done. intros [= <-]. apply length_md5.
  - intros e.
    destruct (sorted _) eqn:E1; [|intros [= <-]; by eapply sorted_raises].
    destruct (sorted_values (default [] (a_service_dependencies a))) eqn:E2;
      [|intros [= <-]; by eapply sorted_values_raises].
    destruct (sorted_values (default [] (a_service_endpoints a))) eqn:E3;
      [|intros [= <-]; by eapply sorted_values_raises].
    destruct (Json.dumps_arch _ _ _) eqn:E4; [done|].
    intros [= <-]. by eapply dumps_arch_raises.
  - intros Hs Hkv.
    destruct (sorted_no_None _ Hs) as [sv ->].
    destruct (sorted_values_returns (default [] (a_service_dependencies a)))
      as [cd Hcd].
    { intros kv Hin. apply Hkv, elem_of_app. by left. }
    destruct (sorted_values_returns (default [] (a_service_endpoints a)))
      as [ce Hce].
    { intros kv Hin. apply Hkv, elem_of_app. by right. }
    rewrite Hcd, Hce. unfold Json.dumps_arch, mbind, outcome_bind.
    destruct (dumps_dict_returns cd) as [sd ->].
    { rewrite (sorted_values_keys _ _ Hcd).
      intros (kv & Hk & Hin)%list_elem_of_fmap.
      destruct (Hkv kv) as [Hne _]; [apply elem_of_app; by left|]. by destruct Hne. }
    destruct (dumps_dict_returns ce) as [se ->].
    { rewrite (sorted_values_keys _ _ Hce).
      intros (kv & Hk & Hin)%list_elem_of_fmap.
      destruct (Hkv kv) as [Hne _]; [apply elem_of_app; by right|]. by destruct Hne. }
    by eexists.
Qed.

End HashMore.
